(** * A fixed-capacity ring buffer of bytes (ring_buffer.c)

    Shallow embedding of [rb_init], [rb_push], [rb_pop] and [rb_clean] and
    the properties their specification states about them.

    Modelling choices.
    - [size_t] is an unsigned 64-bit integer: a [Z] in [[0, SIZE_MOD)], with
      the wrap-around of [+] and [*] written out ([size_add], [size_mul]).
    - [uint8_t] is [Byte.byte].
    - The storage lives in a heap of blocks ([gmap block (list byte)]); the
      [buffer] field is a pointer, [NULL] or the start of a block.
    - A C function is a computation [M A]: from a heap it either completes
      ([Done]: result, new heap, trace of the memory events it performed) or
      has undefined behaviour ([Undef]: access through [NULL], through a
      pointer to a block that is not live, or outside the block).
    - The [t_rb *c] argument is passed as a record and the updated record is
      returned; the [uint8_t *data] sink of [rb_pop] is passed as the byte it
      holds before the call and returned as the byte it holds after it.
    - [main] of example.c returns its exit status and the lines it printed;
      its [while] loop takes a bound on the number of iterations. *)

From Stdlib Require Import ZArith Lia.
From Stdlib Require Import Init.Byte.
From stdpp Require Import base gmap list strings.
From Stdlib Require DecimalString.

Open Scope Z_scope.

(** ** Machine integers *)

Definition SIZE_WIDTH : Z := 64.
Definition SIZE_MOD : Z := 2 ^ SIZE_WIDTH.

Definition size_ok (x : Z) : Prop := 0 <= x < SIZE_MOD.

Definition size_add (x y : Z) : Z := (x + y) mod SIZE_MOD.
Definition size_mul (x y : Z) : Z := (x * y) mod SIZE_MOD.

(** [sizeof(uint8_t)] *)
Definition SIZEOF_UINT8 : Z := 1.

(** ** Memory *)

Definition block := positive.

Inductive ptr :=
| NULL
| Ptr (b : block).

Abbreviation heap := (gmap block (list byte)).

Inductive event :=
| EvMalloc (n : Z) (p : ptr)
| EvFree (p : ptr)
| EvLoad (b : block) (i : Z)
| EvStore (b : block) (i : Z) (v : byte).

Inductive outcome (A : Type) :=
| Done (a : A) (h : heap) (t : list event)
| Undef.

Arguments Done {A} a h t.
Arguments Undef {A}.

Definition M (A : Type) : Type := heap -> outcome A.

#[export] Instance M_ret : MRet M :=
  fun A (a : A) h => Done a h [].

#[export] Instance M_bind : MBind M :=
  fun A B (f : A -> M B) (m : M A) h =>
    match m h with
    | Done a h1 t1 =>
        match f a h1 with
        | Done b h2 t2 => Done b h2 (t1 ++ t2)
        | Undef => Undef
        end
    | Undef => Undef
    end.

(** [p[i]] as an rvalue. *)
Definition load (p : ptr) (i : Z) : M byte :=
  fun h =>
    match p with
    | NULL => Undef
    | Ptr b =>
        match h !! b with
        | None => Undef
        | Some l =>
            if i <? 0 then Undef
            else match l !! Z.to_nat i with
                 | Some v => Done v h [EvLoad b i]
                 | None => Undef
                 end
        end
    end.

(** [p[i] = v]. *)
Definition store (p : ptr) (i : Z) (v : byte) : M unit :=
  fun h =>
    match p with
    | NULL => Undef
    | Ptr b =>
        match h !! b with
        | None => Undef
        | Some l =>
            if i <? 0 then Undef
            else if i <? Z.of_nat (length l)
            then Done tt (<[b := <[Z.to_nat i := v]> l]> h) [EvStore b i v]
            else Undef
        end
    end.

(** What the allocator does on one call: it fails, or it hands out a fresh
    block whose initial contents are indeterminate ([junk i] in cell [i]). *)
Inductive alloc :=
| AllocFail
| AllocOk (junk : nat -> byte).

Definition malloc (a : alloc) (n : Z) : M ptr :=
  fun h =>
    match a with
    | AllocFail => Done NULL h [EvMalloc n NULL]
    | AllocOk junk =>
        let b := fresh (dom h) in
        Done (Ptr b) (<[b := junk <$> seq 0 (Z.to_nat n)]> h)
             [EvMalloc n (Ptr b)]
    end.

(** [free(p)]: nothing for [NULL], releases a live block, undefined on a
    pointer that is not live (a second free of the same block). *)
Definition free (p : ptr) : M unit :=
  fun h =>
    match p with
    | NULL => Done tt h [EvFree NULL]
    | Ptr b =>
        match h !! b with
        | Some _ => Done tt (delete b h) [EvFree (Ptr b)]
        | None => Undef
        end
    end.

(** ** The ring buffer (ring_buffer.h, ring_buffer.c) *)

Record t_rb := {
  buffer : ptr;
  head : Z;
  tail : Z;
  maxlen : Z
}.

(** [int rb_push(t_rb *c, uint8_t data)] *)
Definition rb_push (c : t_rb) (data : byte) : M (Z * t_rb) :=
  let next := size_add (head c) 1 in
  let next := if next >=? maxlen c then 0 else next in
  if next =? tail c then mret (-1, c)
  else
    store (buffer c) (head c) data ;;
    mret (0, {| buffer := buffer c; head := next;
               tail := tail c; maxlen := maxlen c |}).

(** [int rb_pop(t_rb *c, uint8_t *data)]; the third component of the result
    is the content of [*data] after the call. *)
Definition rb_pop (c : t_rb) (data : byte) : M (Z * t_rb * byte) :=
  if head c =? tail c then mret (-1, c, data)
  else
    let next := size_add (tail c) 1 in
    let next := if next >=? maxlen c then 0 else next in
    v ← load (buffer c) (tail c) ;
    mret (0, {| buffer := buffer c; head := head c;
               tail := next; maxlen := maxlen c |}, v).

(** [void rb_init(t_rb *c, size_t size)] *)
Definition rb_init (c : t_rb) (size : Z) (a : alloc) : M t_rb :=
  p ← malloc a (size_mul size SIZEOF_UINT8) ;
  mret {| buffer := p; head := 0; tail := 0; maxlen := size |}.

(** [void rb_clean(t_rb *c)] *)
Definition rb_clean (c : t_rb) : M t_rb :=
  match buffer c with
  | NULL => mret tt
  | Ptr _ => free (buffer c)
  end ;;
  mret {| buffer := NULL; head := 0; tail := 0; maxlen := 0 |}.

(** ** Clients: sequences of calls on one buffer

    A caller (as [main] in example.c) issues a finite sequence of
    [rb_push] and [rb_pop] calls on the buffer it has initialised.  The log
    keeps, for each call, its return value and the content of the caller's
    output byte after it. *)

Inductive call :=
| Push (d : byte)
| Pop.

Record entry := {
  e_call : call;
  e_ret : Z;
  e_out : byte
}.

Definition do_call (k : call) (c : t_rb) (out : byte) : M (Z * t_rb * byte) :=
  match k with
  | Push d => r ← rb_push c d ; mret (r.1, r.2, out)
  | Pop => rb_pop c out
  end.

Fixpoint run (ks : list call) (c : t_rb) (out : byte)
  : M (t_rb * byte * list entry) :=
  match ks with
  | [] => mret (c, out, [])
  | k :: ks =>
      r ← do_call k c out ;
      r' ← run ks r.1.2 r.2 ;
      mret (r'.1.1, r'.1.2,
            {| e_call := k; e_ret := r.1.1; e_out := r.2 |} :: r'.2)
  end.

(** [rb_init(&rb, size)] followed by the calls [ks]. *)
Definition session (size : Z) (a : alloc) (ks : list call)
    (c0 : t_rb) (out0 : byte) : M (t_rb * byte * list entry) :=
  c ← rb_init c0 size a ;
  run ks c out0.

(** The bytes given to the pushes that returned 0, in call order. *)
Fixpoint pushed (log : list entry) : list byte :=
  match log with
  | [] => []
  | e :: log =>
      match e_call e with
      | Push d => if e_ret e =? 0 then d :: pushed log else pushed log
      | Pop => pushed log
      end
  end.

(** The bytes delivered by the pops that returned 0, in call order. *)
Fixpoint popped (log : list entry) : list byte :=
  match log with
  | [] => []
  | e :: log =>
      match e_call e with
      | Push _ => popped log
      | Pop => if e_ret e =? 0 then e_out e :: popped log else popped log
      end
  end.

(** ** Abstraction: the data model of the specification *)

(** The block [buffer] points to, when there is one. *)
Definition storage (c : t_rb) (h : heap) : option (list byte) :=
  match buffer c with
  | NULL => None
  | Ptr b => h !! b
  end.

(** [storage] is a live block of exactly [maxlen] bytes. *)
Definition backed (c : t_rb) (h : heap) : Prop :=
  exists l, storage c h = Some l /\ Z.of_nat (length l) = maxlen c.

(** Both cursors index into the storage. *)
Definition in_range (c : t_rb) : Prop :=
  0 <= head c < maxlen c /\ 0 <= tail c < maxlen c.

(** Occupied element count, as the specification gives it. *)
Definition count (c : t_rb) : Z :=
  (head c - tail c + maxlen c) mod maxlen c.

(** The successor of a cursor as both functions compute it. *)
Definition succ_wrap (i C : Z) : Z :=
  let next := size_add i 1 in
  if next >=? C then 0 else next.

(** [n] cells of [l] read from cursor [t] onwards, wrapping at [C]. *)
Fixpoint cells (l : list byte) (C t : Z) (n : nat) : list byte :=
  match n with
  | O => []
  | S n => default x00 (l !! Z.to_nat t) :: cells l C (succ_wrap t C) n
  end.

(** The queued bytes, oldest first: the [count] cells from [tail]. *)
Definition queue (c : t_rb) (l : list byte) : list byte :=
  cells l (maxlen c) (tail c) (Z.to_nat (count c)).

(** The state a successful push leaves. *)
Definition advance_head (c : t_rb) : t_rb :=
  {| buffer := buffer c; head := succ_wrap (head c) (maxlen c);
     tail := tail c; maxlen := maxlen c |}.

(** The state a successful pop leaves. *)
Definition advance_tail (c : t_rb) : t_rb :=
  {| buffer := buffer c; head := head c;
     tail := succ_wrap (tail c) (maxlen c); maxlen := maxlen c |}.

(** The representation invariant.

    Either the buffer has no capacity and both cursors are 0 (after
    [rb_init] with size 0; a push is then always refused), or the cursors
    index into a live block of [maxlen] bytes. *)

Definition rb_inv (c : t_rb) (h : heap) : Prop :=
  size_ok (maxlen c) /\
  ((maxlen c = 0 /\ head c = 0 /\ tail c = 0) \/
   (in_range c /\ backed c h)).

(** The queued bytes of a state. *)
Definition contents (c : t_rb) (h : heap) : list byte :=
  queue c (default [] (storage c h)).

(** States the four operations can produce, from any first [rb_init]. *)
Inductive api_reachable : t_rb -> heap -> Prop :=
| reach_init c0 h0 size a c h t :
    size_ok size ->
    rb_init c0 size a h0 = Done c h t -> api_reachable c h
| reach_reinit c0 h0 size a c h t :
    api_reachable c0 h0 -> size_ok size ->
    rb_init c0 size a h0 = Done c h t -> api_reachable c h
| reach_push c0 h0 d r c h t :
    api_reachable c0 h0 ->
    rb_push c0 d h0 = Done (r, c) h t -> api_reachable c h
| reach_pop c0 h0 out r out' c h t :
    api_reachable c0 h0 ->
    rb_pop c0 out h0 = Done (r, c, out') h t -> api_reachable c h
| reach_clean c0 h0 c h t :
    api_reachable c0 h0 ->
    rb_clean c0 h0 = Done c h t -> api_reachable c h.

(** The push of the specification's wording: the candidate next head is
    [(head + 1) % capacity], where [%] by zero is undefined. *)
Definition rb_push_modulo (c : t_rb) (data : byte) : M (Z * t_rb) :=
  if maxlen c =? 0 then (fun _ => Undef)
  else
    let next := (head c + 1) mod maxlen c in
    if next =? tail c then mret (-1, c)
    else
      store (buffer c) (head c) data ;;
      mret (0, {| buffer := buffer c; head := next;
                 tail := tail c; maxlen := maxlen c |}).

(** ** The demonstration program (example.c) *)

Definition newline : string := String (Ascii.ascii_of_nat 10) EmptyString.

(** The text [printf("Popped: %d\n", data)] writes: [data] is promoted to
    [int] and printed in decimal. *)
Definition printf_popped (data : byte) : string :=
  String.append "Popped: "
    (String.append
       (DecimalString.NilZero.string_of_uint (N.to_uint (Byte.to_N data)))
       newline).

(** [while (rb_pop(&rb, &data) != -1) printf("Popped: %d\n", data);] with
    at most [fuel] evaluations of the condition; [None] when they do not
    suffice.  [stdout] collects the lines printed so far. *)
Fixpoint drain (fuel : nat) (rb : t_rb) (data : byte) (stdout : list string)
  : M (option (t_rb * byte * list string)) :=
  match fuel with
  | O => mret None
  | S fuel =>
      r ← rb_pop rb data ;
      if negb (r.1.1 =? -1)
      then drain fuel r.1.2 r.2 (stdout ++ [printf_popped r.2])
      else mret (Some (r.1.2, r.2, stdout))
  end.

(** [int main(void)]: [rb] and [data] are the indeterminate initial values
    of the two locals; the result is the exit status and the lines
    printed. *)
Definition main (a : alloc) (rb : t_rb) (data : byte) (fuel : nat)
  : M (option (Z * list string)) :=
  rb ← rb_init rb 5 a ;
  r1 ← rb_push rb x0a ;
  r2 ← rb_push r1.2 x14 ;
  d ← drain fuel r2.2 data [] ;
  match d with
  | None => mret None
  | Some (rb, data, stdout) =>
      rb_clean rb ;;
      mret (Some (0, stdout))
  end.

(** A load or a store inside block [b]. *)
Definition access_in (b : block) (e : event) : Prop :=
  match e with
  | EvLoad b' _ => b' = b
  | EvStore b' _ _ => b' = b
  | EvMalloc _ _ => False
  | EvFree _ => False
  end.

(** [rb_init], the calls [ks], then [rb_clean]: the whole life of a
    buffer. *)
Definition lifecycle (size : Z) (a : alloc) (ks : list call)
    (c0 : t_rb) (out0 : byte) : M (t_rb * byte * list entry) :=
  r ← session size a ks c0 out0 ;
  c ← rb_clean r.1.1 ;
  mret (c, r.1.2, r.2).

(** A reference queue to compare the buffer with: a list of bytes, oldest
    first, that holds fewer than [cap] bytes.  A push on a list with
    [cap - 1] bytes or more is refused, a pop on the empty list is
    refused. *)
Definition fifo_call (cap : Z) (k : call) (q : list byte) (out : byte)
  : Z * list byte * byte :=
  match k with
  | Push d =>
      if Z.of_nat (length q) + 1 <? cap then (0, q ++ [d], out)
      else (-1, q, out)
  | Pop =>
      match q with
      | [] => (-1, q, out)
      | v :: q' => (0, q', v)
      end
  end.

Fixpoint fifo_run (cap : Z) (ks : list call) (q : list byte) (out : byte)
  : list byte * byte * list entry :=
  match ks with
  | [] => (q, out, [])
  | k :: ks =>
      let r := fifo_call cap k q out in
      let r' := fifo_run cap ks r.1.2 r.2 in
      (r'.1.1, r'.1.2,
       {| e_call := k; e_ret := r.1.1; e_out := r.2 |} :: r'.2)
  end.

(** ** Example data

    The buffer of example.c (capacity 5) pushed 10 and 20
    and popped once; a full buffer of capacity 5 holding 1, 2, 3, 4; and a
    record with no capacity whose [tail] is not 0, which no operation
    produces. *)

Definition ex_junk : nat -> byte := fun _ => x00.

Definition ex_junk_ff : nat -> byte := fun _ => xff.

Definition ex_blank : t_rb :=
  {| buffer := NULL; head := 0; tail := 0; maxlen := 0 |}.

Definition ex_calls : list call := [Push x0a; Push x14; Pop].

Definition ex_state : t_rb :=
  {| buffer := Ptr 1%positive; head := 2; tail := 1; maxlen := 5 |}.

Definition ex_log : list entry :=
  [ {| e_call := Push x0a; e_ret := 0; e_out := x00 |};
    {| e_call := Push x14; e_ret := 0; e_out := x00 |};
    {| e_call := Pop; e_ret := 0; e_out := x0a |} ].

Definition ex_heap : heap := {[ 1%positive := [x0a; x14; x00; x00; x00] ]}.

Definition ex_trace : list event :=
  [ EvMalloc 5 (Ptr 1%positive); EvStore 1%positive 0 x0a;
    EvStore 1%positive 1 x14; EvLoad 1%positive 0 ].

Definition ex_drained : t_rb :=
  {| buffer := Ptr 1%positive; head := 1; tail := 1; maxlen := 5 |}.

Definition ex_drained_log : list entry :=
  [ {| e_call := Push x0a; e_ret := 0; e_out := x00 |};
    {| e_call := Pop; e_ret := 0; e_out := x0a |} ].

Definition ex_drained_heap : heap :=
  {[ 1%positive := [x0a; x00; x00; x00; x00] ]}.

Definition ex_drained_trace : list event :=
  [ EvMalloc 5 (Ptr 1%positive); EvStore 1%positive 0 x0a;
    EvLoad 1%positive 0 ].

Definition ex_full : t_rb :=
  {| buffer := Ptr 1%positive; head := 4; tail := 0; maxlen := 5 |}.

Definition ex_full_heap : heap :=
  {[ 1%positive := [x01; x02; x03; x04; x00] ]}.

Definition ex_stale : t_rb :=
  {| buffer := Ptr 1%positive; head := 0; tail := 1; maxlen := 0 |}.

Ltac unfold_M := unfold mbind, M_bind, mret, M_ret in *.

(** * Properties *)

(** ** Machine arithmetic *)

Lemma SIZE_MOD_pos : 1 < SIZE_MOD.
Proof. reflexivity. Qed.

Lemma size_add_small x y : 0 <= x + y < SIZE_MOD -> size_add x y = x + y.
Proof. intros H. unfold size_add. apply Z.mod_small. exact H. Qed.

Lemma size_mul_sizeof x : size_ok x -> size_mul x SIZEOF_UINT8 = x.
Proof.
  intros H. unfold size_mul, SIZEOF_UINT8.
  rewrite Z.mul_1_r. apply Z.mod_small. exact H.
Qed.

Lemma succ_wrap_below i C :
  0 <= i -> i + 1 < C -> C <= SIZE_MOD -> succ_wrap i C = i + 1.
Proof.
  intros Hi Hlt HC. unfold succ_wrap.
  rewrite size_add_small by lia.
  destruct (Z.geb_spec (i + 1) C); lia.
Qed.

Lemma succ_wrap_last i C :
  0 <= i -> C <= i + 1 -> i < SIZE_MOD -> succ_wrap i C = 0.
Proof.
  intros Hi Hge Hlt. unfold succ_wrap, size_add.
  destruct (Z.eq_dec (i + 1) SIZE_MOD) as [E | E].
  - rewrite E, Z.mod_same by (pose proof SIZE_MOD_pos; lia).
    destruct (0 >=? C); reflexivity.
  - rewrite Z.mod_small by lia.
    destruct (Z.geb_spec (i + 1) C); lia.
Qed.

(** On a cursor inside a buffer the comparison is the modulo. *)
Lemma succ_wrap_mod i C :
  0 <= i < C -> C <= SIZE_MOD -> succ_wrap i C = (i + 1) mod C.
Proof.
  intros Hi HC.
  destruct (Z.eq_dec (i + 1) C) as [E | E].
  - rewrite succ_wrap_last by lia. rewrite E, Z.mod_same by lia. reflexivity.
  - rewrite succ_wrap_below by lia. rewrite Z.mod_small by lia. reflexivity.
Qed.

Lemma succ_wrap_range i C :
  0 <= i < C -> C <= SIZE_MOD -> 0 <= succ_wrap i C < C.
Proof.
  intros Hi HC. rewrite succ_wrap_mod by assumption.
  apply Z.mod_pos_bound. lia.
Qed.

(** With no capacity every successor is 0. *)
Lemma succ_wrap_zero i : succ_wrap i 0 = 0.
Proof.
  unfold succ_wrap, size_add.
  pose proof (Z.mod_pos_bound (i + 1) SIZE_MOD) as H.
  pose proof SIZE_MOD_pos.
  destruct (Z.geb_spec ((i + 1) mod SIZE_MOD) 0); lia.
Qed.

(** ** One call of each operation *)

Lemma rb_push_unfold c d :
  rb_push c d =
  if succ_wrap (head c) (maxlen c) =? tail c then mret (-1, c)
  else
    store (buffer c) (head c) d ;;
    mret (0, {| buffer := buffer c; head := succ_wrap (head c) (maxlen c);
               tail := tail c; maxlen := maxlen c |}).
Proof. reflexivity. Qed.

Lemma rb_pop_unfold c out :
  rb_pop c out =
  if head c =? tail c then mret (-1, c, out)
  else
    v ← load (buffer c) (tail c) ;
    mret (0, {| buffer := buffer c; head := head c;
               tail := succ_wrap (tail c) (maxlen c);
               maxlen := maxlen c |}, v).
Proof. reflexivity. Qed.

Lemma store_done p i v h u h' t :
  store p i v h = Done u h' t ->
  exists b l, p = Ptr b /\ h !! b = Some l /\
    0 <= i < Z.of_nat (length l) /\
    h' = <[b := <[Z.to_nat i := v]> l]> h /\ t = [EvStore b i v].
Proof.
  unfold store. destruct p as [| b]; [discriminate |].
  destruct (h !! b) as [l |] eqn:Hl; [| discriminate].
  destruct (Z.ltb_spec i 0); [discriminate |].
  destruct (Z.ltb_spec i (Z.of_nat (length l))); [| discriminate].
  intros [= <- <- <-]. exists b, l. repeat split; auto.
Qed.

Lemma store_in_bounds b l i v (h : heap) :
  h !! b = Some l -> 0 <= i < Z.of_nat (length l) ->
  store (Ptr b) i v h =
  Done tt (<[b := <[Z.to_nat i := v]> l]> h) [EvStore b i v].
Proof.
  intros Hl Hi. unfold store. rewrite Hl.
  destruct (Z.ltb_spec i 0); [lia |].
  destruct (Z.ltb_spec i (Z.of_nat (length l))); [reflexivity | lia].
Qed.

Lemma load_done p i h v h' t :
  load p i h = Done v h' t ->
  exists b l, p = Ptr b /\ h !! b = Some l /\ 0 <= i /\
    l !! Z.to_nat i = Some v /\ h' = h /\ t = [EvLoad b i].
Proof.
  unfold load. destruct p as [| b]; [discriminate |].
  destruct (h !! b) as [l |] eqn:Hl; [| discriminate].
  destruct (Z.ltb_spec i 0); [discriminate |].
  destruct (l !! Z.to_nat i) as [w |] eqn:Hw; [| discriminate].
  intros [= <- <- <-]. exists b, l. repeat split; auto.
Qed.

Lemma load_in_bounds b l i v (h : heap) :
  h !! b = Some l -> 0 <= i -> l !! Z.to_nat i = Some v ->
  load (Ptr b) i h = Done v h [EvLoad b i].
Proof.
  intros Hl Hi Hv. unfold load. rewrite Hl.
  destruct (Z.ltb_spec i 0); [lia |]. rewrite Hv. reflexivity.
Qed.

(** [rb_push] when the candidate next head meets [tail]. *)
Lemma rb_push_full c d h :
  succ_wrap (head c) (maxlen c) = tail c ->
  rb_push c d h = Done (-1, c) h [].
Proof.
  intros E. rewrite rb_push_unfold.
  rewrite (proj2 (Z.eqb_eq _ _) E). reflexivity.
Qed.

(** [rb_push] when it does not, on a cell of a live block. *)
Lemma rb_push_room c d h b l :
  succ_wrap (head c) (maxlen c) <> tail c ->
  buffer c = Ptr b -> h !! b = Some l ->
  0 <= head c < Z.of_nat (length l) ->
  rb_push c d h =
  Done (0, {| buffer := buffer c; head := succ_wrap (head c) (maxlen c);
              tail := tail c; maxlen := maxlen c |})
       (<[b := <[Z.to_nat (head c) := d]> l]> h)
       [EvStore b (head c) d].
Proof.
  intros E Hb Hl Hi. rewrite rb_push_unfold.
  rewrite (proj2 (Z.eqb_neq _ _) E). unfold_M.
  rewrite Hb at 1. rewrite (store_in_bounds _ _ _ _ _ Hl Hi).
  reflexivity.
Qed.

(** Every completed [rb_push] is one of the two. *)
Lemma rb_push_done c d h r c' h' t :
  rb_push c d h = Done (r, c') h' t ->
  (r = -1 /\ succ_wrap (head c) (maxlen c) = tail c /\
   c' = c /\ h' = h /\ t = []) \/
  (r = 0 /\ succ_wrap (head c) (maxlen c) <> tail c /\
   exists b l, buffer c = Ptr b /\ h !! b = Some l /\
     0 <= head c < Z.of_nat (length l) /\
     c' = {| buffer := buffer c; head := succ_wrap (head c) (maxlen c);
             tail := tail c; maxlen := maxlen c |} /\
     h' = <[b := <[Z.to_nat (head c) := d]> l]> h /\
     t = [EvStore b (head c) d]).
Proof.
  rewrite rb_push_unfold.
  destruct (Z.eqb_spec (succ_wrap (head c) (maxlen c)) (tail c)) as [E | E].
  - unfold_M. intros [= <- <- <- <-]. left. repeat split; assumption.
  - unfold_M.
    destruct (store (buffer c) (head c) d h) as [u h1 t1 |] eqn:Hs;
      [| discriminate].
    intros [= <- <- <- <-]. right.
    apply store_done in Hs as (b & l & Hb & Hl & Hi & -> & ->).
    split; [reflexivity |]. split; [exact E |].
    exists b, l. repeat split; auto; lia.
Qed.

(** [rb_pop] when the cursors meet. *)
Lemma rb_pop_empty c out h :
  head c = tail c -> rb_pop c out h = Done (-1, c, out) h [].
Proof.
  intros E. rewrite rb_pop_unfold.
  rewrite (proj2 (Z.eqb_eq _ _) E). reflexivity.
Qed.

(** [rb_pop] when they differ, on a cell of a live block. *)
Lemma rb_pop_some c out h b l v :
  head c <> tail c ->
  buffer c = Ptr b -> h !! b = Some l ->
  0 <= tail c -> l !! Z.to_nat (tail c) = Some v ->
  rb_pop c out h =
  Done (0, {| buffer := buffer c; head := head c;
              tail := succ_wrap (tail c) (maxlen c);
              maxlen := maxlen c |}, v)
       h [EvLoad b (tail c)].
Proof.
  intros E Hb Hl Hi Hv. rewrite rb_pop_unfold.
  rewrite (proj2 (Z.eqb_neq _ _) E). unfold_M.
  rewrite Hb at 1. rewrite (load_in_bounds _ _ _ _ _ Hl Hi Hv).
  reflexivity.
Qed.

(** Every completed [rb_pop] is one of the two. *)
Lemma rb_pop_done c out h r c' out' h' t :
  rb_pop c out h = Done (r, c', out') h' t ->
  (r = -1 /\ head c = tail c /\
   c' = c /\ out' = out /\ h' = h /\ t = []) \/
  (r = 0 /\ head c <> tail c /\
   exists b l, buffer c = Ptr b /\ h !! b = Some l /\ 0 <= tail c /\
     l !! Z.to_nat (tail c) = Some out' /\
     c' = {| buffer := buffer c; head := head c;
             tail := succ_wrap (tail c) (maxlen c);
             maxlen := maxlen c |} /\
     h' = h /\ t = [EvLoad b (tail c)]).
Proof.
  rewrite rb_pop_unfold.
  destruct (Z.eqb_spec (head c) (tail c)) as [E | E].
  - unfold_M. intros [= <- <- <- <- <-]. left. repeat split; assumption.
  - unfold_M.
    destruct (load (buffer c) (tail c) h) as [v h1 t1 |] eqn:Hs;
      [| discriminate].
    intros [= <- <- <- <- <-]. right.
    apply load_done in Hs as (b & l & Hb & Hl & Hi & Hv & -> & ->).
    split; [reflexivity |]. split; [exact E |].
    exists b, l. repeat split; auto.
Qed.

(** ** Cursor arithmetic inside a buffer *)

Lemma succ_wrap_cases i C :
  0 <= i < C -> C <= SIZE_MOD ->
  succ_wrap i C = if i + 1 =? C then 0 else i + 1.
Proof.
  intros Hi HC. destruct (Z.eqb_spec (i + 1) C).
  - apply succ_wrap_last; lia.
  - apply succ_wrap_below; lia.
Qed.

Lemma dist_cases C x y :
  0 <= x < C -> 0 <= y < C ->
  (x - y + C) mod C = if y <=? x then x - y else x - y + C.
Proof.
  intros Hx Hy. destruct (Z.leb_spec y x).
  - replace (x - y + C) with (x - y + 1 * C) by lia.
    rewrite Z.mod_add by lia. apply Z.mod_small. lia.
  - apply Z.mod_small. lia.
Qed.

Lemma count_cases c :
  in_range c ->
  count c = if tail c <=? head c then head c - tail c
            else head c - tail c + maxlen c.
Proof. intros [Hh Ht]. unfold count. apply dist_cases; assumption. Qed.

Lemma count_range c : in_range c -> 0 <= count c <= maxlen c - 1.
Proof.
  intros H. rewrite (count_cases c H). destruct H as [Hh Ht].
  destruct (Z.leb_spec (tail c) (head c)); lia.
Qed.

Lemma count_zero c : in_range c -> (count c = 0 <-> head c = tail c).
Proof.
  intros H. rewrite (count_cases c H). destruct H as [Hh Ht].
  destruct (Z.leb_spec (tail c) (head c)); lia.
Qed.

Lemma count_full c :
  in_range c -> maxlen c <= SIZE_MOD ->
  (count c = maxlen c - 1 <-> succ_wrap (head c) (maxlen c) = tail c).
Proof.
  intros H HC. rewrite (count_cases c H). destruct H as [Hh Ht].
  rewrite succ_wrap_cases by assumption.
  destruct (Z.leb_spec (tail c) (head c));
    destruct (Z.eqb_spec (head c + 1) (maxlen c)); lia.
Qed.

Lemma advance_head_range c :
  in_range c -> maxlen c <= SIZE_MOD -> in_range (advance_head c).
Proof.
  intros [Hh Ht] HC. split; simpl; [| exact Ht].
  apply succ_wrap_range; assumption.
Qed.

Lemma advance_tail_range c :
  in_range c -> maxlen c <= SIZE_MOD -> in_range (advance_tail c).
Proof.
  intros [Hh Ht] HC. split; simpl; [exact Hh |].
  apply succ_wrap_range; assumption.
Qed.

Lemma count_advance_head c :
  in_range c -> maxlen c <= SIZE_MOD ->
  succ_wrap (head c) (maxlen c) <> tail c ->
  count (advance_head c) = count c + 1.
Proof.
  intros H HC Hne.
  rewrite (count_cases _ (advance_head_range c H HC)), (count_cases c H).
  destruct H as [Hh Ht]. simpl.
  rewrite succ_wrap_cases in * by assumption.
  destruct (Z.eqb_spec (head c + 1) (maxlen c));
    destruct (Z.leb_spec (tail c) (head c));
    match goal with |- context [?a <=? ?b] => destruct (Z.leb_spec a b) end;
    lia.
Qed.

Lemma count_advance_tail c :
  in_range c -> maxlen c <= SIZE_MOD ->
  head c <> tail c ->
  count (advance_tail c) = count c - 1.
Proof.
  intros H HC Hne.
  rewrite (count_cases _ (advance_tail_range c H HC)), (count_cases c H).
  destruct H as [Hh Ht]. simpl.
  rewrite succ_wrap_cases in * by assumption.
  destruct (Z.eqb_spec (tail c + 1) (maxlen c));
    destruct (Z.leb_spec (tail c) (head c));
    match goal with |- context [?a <=? ?b] => destruct (Z.leb_spec a b) end;
    lia.
Qed.

(** ** The queued bytes *)

Lemma cells_length l C t n : length (cells l C t n) = n.
Proof.
  revert t. induction n as [| n IH]; intros t; simpl; [reflexivity |].
  rewrite IH. reflexivity.
Qed.

(** Reading [n] cells and then the one a push has just written. *)
Lemma cells_snoc (l : list byte) C hd d :
  0 <= hd < C -> C <= SIZE_MOD -> Z.of_nat (length l) = C ->
  forall n t, 0 <= t < C -> (hd - t + C) mod C = Z.of_nat n ->
    cells (<[Z.to_nat hd := d]> l) C t (S n) = cells l C t n ++ [d].
Proof.
  intros Hhd HC Hlen. induction n as [| n IH]; intros t Ht Hdist.
  - rewrite dist_cases in Hdist by assumption.
    assert (t = hd) as -> by (destruct (Z.leb_spec t hd); lia).
    simpl. rewrite list_lookup_insert_eq by lia. reflexivity.
  - rewrite dist_cases in Hdist by assumption.
    assert (t <> hd) as Hne by (destruct (Z.leb_spec t hd); lia).
    change (cells (<[Z.to_nat hd := d]> l) C t (S (S n)))
      with (default x00 (<[Z.to_nat hd := d]> l !! Z.to_nat t)
            :: cells (<[Z.to_nat hd := d]> l) C (succ_wrap t C) (S n)).
    rewrite list_lookup_insert_ne by lia.
    rewrite IH.
    + reflexivity.
    + apply succ_wrap_range; assumption.
    + rewrite dist_cases by (try apply succ_wrap_range; assumption).
      rewrite succ_wrap_cases by assumption.
      destruct (Z.eqb_spec (t + 1) C); destruct (Z.leb_spec t hd);
        match goal with |- context [?a <=? ?b] => destruct (Z.leb_spec a b) end;
        lia.
Qed.

Lemma queue_push c (l : list byte) d :
  in_range c -> maxlen c <= SIZE_MOD ->
  Z.of_nat (length l) = maxlen c ->
  succ_wrap (head c) (maxlen c) <> tail c ->
  queue (advance_head c) (<[Z.to_nat (head c) := d]> l) = queue c l ++ [d].
Proof.
  intros H HC Hlen Hne. unfold queue.
  rewrite count_advance_head by assumption.
  pose proof (count_range c H) as Hcnt.
  replace (Z.to_nat (count c + 1)) with (S (Z.to_nat (count c))) by lia.
  destruct H as [Hh Ht]. simpl.
  apply cells_snoc; try assumption.
  unfold count in *. lia.
Qed.

Lemma queue_pop c (l : list byte) v :
  in_range c -> maxlen c <= SIZE_MOD ->
  head c <> tail c ->
  l !! Z.to_nat (tail c) = Some v ->
  queue c l = v :: queue (advance_tail c) l.
Proof.
  intros H HC Hne Hv. unfold queue.
  rewrite count_advance_tail by assumption.
  pose proof (count_range c H) as Hcnt.
  pose proof (count_zero c H) as Hz.
  replace (Z.to_nat (count c)) with (S (Z.to_nat (count c - 1))) by lia.
  simpl. rewrite Hv. reflexivity.
Qed.

Lemma size_ok_le x : size_ok x -> x <= SIZE_MOD.
Proof. unfold size_ok. lia. Qed.

Lemma contents_degenerate c h :
  maxlen c = 0 -> head c = 0 -> tail c = 0 ->
  count c = 0 /\ contents c h = [].
Proof.
  intros Hm Hh Ht. unfold contents, queue, count.
  rewrite Hm, Hh, Ht. split; reflexivity.
Qed.

Lemma rb_push_step c d h :
  rb_inv c h ->
  exists r c' h' t,
    rb_push c d h = Done (r, c') h' t /\
    rb_inv c' h' /\ maxlen c' = maxlen c /\ buffer c' = buffer c /\
    ((r = -1 /\ c' = c /\ h' = h /\ t = [] /\ maxlen c <= count c + 1) \/
     (r = 0 /\ count c + 1 < maxlen c /\ count c' = count c + 1 /\
      contents c' h' = contents c h ++ [d])).
Proof.
  intros [Hsz [(Hm & Hh & Ht) | (Hr & l & Hl & Hlen)]].
  - exists (-1), c, h, []. split.
    + apply rb_push_full. rewrite Hm, Ht. apply succ_wrap_zero.
    + split; [split; [exact Hsz | left; auto] |].
      split; [reflexivity |]. split; [reflexivity |]. left.
      destruct (contents_degenerate c h Hm Hh Ht) as [-> _].
      repeat split; lia.
  - pose proof (size_ok_le _ Hsz) as HC.
    pose proof (count_range c Hr) as Hcnt.
    destruct (Z.eq_dec (succ_wrap (head c) (maxlen c)) (tail c)) as [E | E].
    + exists (-1), c, h, []. split; [apply rb_push_full; exact E |].
      split; [split; [exact Hsz | right; split; [exact Hr | exists l; auto]] |].
      split; [reflexivity |]. split; [reflexivity |]. left.
      apply (count_full c Hr HC) in E. repeat split; lia.
    + unfold storage in Hl.
      destruct (buffer c) as [| b] eqn:Hb; [discriminate |].
      exists 0, (advance_head c),
        (<[b := <[Z.to_nat (head c) := d]> l]> h), [EvStore b (head c) d].
      split.
      { unfold advance_head. rewrite Hb.
        rewrite <- Hb at 1.
        apply rb_push_room; try assumption. destruct Hr; lia. }
      assert (storage (advance_head c)
                (<[b := <[Z.to_nat (head c) := d]> l]> h)
              = Some (<[Z.to_nat (head c) := d]> l)) as Hst.
      { unfold storage, advance_head. simpl. rewrite Hb.
        apply lookup_insert_eq. }
      split.
      { split; [exact Hsz | right].
        split; [apply advance_head_range; assumption |].
        eexists. split; [exact Hst |].
        rewrite length_insert. exact Hlen. }
      split; [reflexivity |]. split; [simpl; exact Hb |]. right.
      split; [reflexivity |].
      assert (count c <> maxlen c - 1) as Hnf
        by (intros F; apply E, (count_full c Hr HC), F).
      split; [lia |].
      split; [apply count_advance_head; assumption |].
      unfold contents. rewrite Hst. unfold storage. rewrite Hb, Hl. simpl.
      apply queue_push; assumption.
Qed.

Lemma rb_pop_step c out h :
  rb_inv c h ->
  exists r c' out' t,
    rb_pop c out h = Done (r, c', out') h t /\
    rb_inv c' h /\ maxlen c' = maxlen c /\ buffer c' = buffer c /\
    ((r = -1 /\ c' = c /\ out' = out /\ t = [] /\ count c = 0) \/
     (r = 0 /\ 0 < count c /\ count c' = count c - 1 /\
      contents c h = out' :: contents c' h)).
Proof.
  intros [Hsz [(Hm & Hh & Ht) | (Hr & l & Hl & Hlen)]].
  - exists (-1), c, out, []. split.
    + apply rb_pop_empty. lia.
    + split; [split; [exact Hsz | left; auto] |].
      split; [reflexivity |]. split; [reflexivity |]. left.
      destruct (contents_degenerate c h Hm Hh Ht) as [-> _].
      repeat split.
  - pose proof (size_ok_le _ Hsz) as HC.
    pose proof (count_range c Hr) as Hcnt.
    pose proof (count_zero c Hr) as Hz.
    destruct (Z.eq_dec (head c) (tail c)) as [E | E].
    + exists (-1), c, out, []. split; [apply rb_pop_empty; exact E |].
      split; [split; [exact Hsz | right; split; [exact Hr | exists l; auto]] |].
      split; [reflexivity |]. split; [reflexivity |]. left.
      repeat split. apply Hz, E.
    + unfold storage in Hl.
      destruct (buffer c) as [| b] eqn:Hb; [discriminate |].
      destruct (lookup_lt_is_Some_2 l (Z.to_nat (tail c))) as [v Hv].
      { destruct Hr; lia. }
      exists 0, (advance_tail c), v, [EvLoad b (tail c)].
      split.
      { unfold advance_tail. rewrite Hb.
        rewrite <- Hb at 1.
        apply (rb_pop_some c out h b l v); try assumption. destruct Hr; lia. }
      assert (storage (advance_tail c) h = Some l) as Hst.
      { unfold storage, advance_tail. simpl. rewrite Hb. exact Hl. }
      split.
      { split; [exact Hsz | right].
        split; [apply advance_tail_range; assumption |].
        exists l. split; [exact Hst | exact Hlen]. }
      split; [reflexivity |]. split; [simpl; exact Hb |]. right.
      split; [reflexivity |].
      split; [lia |].
      split; [apply count_advance_tail; assumption |].
      unfold contents. rewrite Hst. unfold storage. rewrite Hb, Hl. simpl.
      apply queue_pop; assumption.
Qed.

Lemma contents_length c h :
  rb_inv c h -> Z.of_nat (length (contents c h)) = count c.
Proof.
  intros [Hsz [(Hm & Hh & Ht) | (Hr & _)]].
  - destruct (contents_degenerate c h Hm Hh Ht) as [-> ->]. reflexivity.
  - unfold contents, queue. rewrite cells_length.
    pose proof (count_range c Hr). lia.
Qed.

(** ** Sequences of calls *)

Lemma run_cons k ks c out h r c1 out1 h1 t1 c2 out2 log h2 t2 :
  do_call k c out h = Done (r, c1, out1) h1 t1 ->
  run ks c1 out1 h1 = Done (c2, out2, log) h2 t2 ->
  run (k :: ks) c out h =
  Done (c2, out2, {| e_call := k; e_ret := r; e_out := out1 |} :: log)
       h2 (t1 ++ t2).
Proof.
  intros H1 H2. simpl. unfold_M. rewrite H1. simpl. rewrite H2. simpl.
  rewrite app_nil_r. reflexivity.
Qed.

Lemma run_cons_done k ks c out h c2 out2 log h2 t :
  run (k :: ks) c out h = Done (c2, out2, log) h2 t ->
  exists r c1 out1 h1 t1 log' t2,
    do_call k c out h = Done (r, c1, out1) h1 t1 /\
    run ks c1 out1 h1 = Done (c2, out2, log') h2 t2 /\
    log = {| e_call := k; e_ret := r; e_out := out1 |} :: log' /\
    t = t1 ++ t2.
Proof.
  simpl. unfold_M.
  destruct (do_call k c out h) as [[[r c1] out1] h1 t1 |]; [| discriminate].
  simpl.
  destruct (run ks c1 out1 h1) as [[[c3 out3] log3] h3 t3 |] eqn:Hrun;
    [| discriminate].
  simpl. intros [= <- <- <- <- <-].
  exists r, c1, out1, h1, t1, log3, t3.
  rewrite app_nil_r. repeat split; auto.
Qed.

Lemma do_call_push c d out h r c' h' t :
  rb_push c d h = Done (r, c') h' t ->
  do_call (Push d) c out h = Done (r, c', out) h' t.
Proof.
  intros H. simpl. unfold_M. rewrite H. simpl.
  rewrite app_nil_r. reflexivity.
Qed.

Lemma do_call_push_done c d out h r c' out' h' t :
  do_call (Push d) c out h = Done (r, c', out') h' t ->
  rb_push c d h = Done (r, c') h' t /\ out' = out.
Proof.
  simpl. unfold_M.
  destruct (rb_push c d h) as [[r1 c1] h1 t1 |]; [| discriminate].
  simpl. intros [= <- <- <- <- <-]. rewrite app_nil_r. split; reflexivity.
Qed.

(** A sequence of calls on a buffer that satisfies the invariant
    completes, keeps the invariant, and delivers the queued and pushed
    bytes in order. *)
Lemma run_fifo ks :
  forall c out h, rb_inv c h ->
  exists c' out' log h' t,
    run ks c out h = Done (c', out', log) h' t /\
    rb_inv c' h' /\ maxlen c' = maxlen c /\ buffer c' = buffer c /\
    contents c h ++ pushed log = popped log ++ contents c' h'.
Proof.
  induction ks as [| k ks IH]; intros c out h Hinv.
  - exists c, out, [], h, []. split; [reflexivity |].
    split; [exact Hinv |]. split; [reflexivity |]. split; [reflexivity |].
    simpl. apply app_nil_r.
  - destruct k as [d |].
    + destruct (rb_push_step c d h Hinv)
        as (r & c1 & h1 & t1 & Hp & Hinv1 & Hm1 & Hb1 & Hcase).
      destruct (IH c1 out h1 Hinv1)
        as (c2 & out2 & log & h2 & t2 & Hrun & Hinv2 & Hm2 & Hb2 & Hfifo).
      exists c2, out2, ({| e_call := Push d; e_ret := r; e_out := out |} :: log),
        h2, (t1 ++ t2).
      split; [apply (run_cons _ _ _ _ _ _ _ _ _ _ _ _ _ _ _
                       (do_call_push _ _ out _ _ _ _ _ Hp) Hrun) |].
      split; [exact Hinv2 |]. split; [congruence |]. split; [congruence |].
      destruct Hcase as [(-> & -> & -> & _) | (-> & _ & _ & Hc)]; simpl.
      * exact Hfifo.
      * rewrite <- Hfifo, Hc, <- app_assoc. reflexivity.
    + destruct (rb_pop_step c out h Hinv)
        as (r & c1 & out1 & t1 & Hp & Hinv1 & Hm1 & Hb1 & Hcase).
      destruct (IH c1 out1 h Hinv1)
        as (c2 & out2 & log & h2 & t2 & Hrun & Hinv2 & Hm2 & Hb2 & Hfifo).
      exists c2, out2, ({| e_call := Pop; e_ret := r; e_out := out1 |} :: log),
        h2, (t1 ++ t2).
      split; [apply (run_cons Pop _ _ _ _ _ _ _ _ _ _ _ _ _ _ Hp Hrun) |].
      split; [exact Hinv2 |]. split; [congruence |]. split; [congruence |].
      destruct Hcase as [(-> & -> & -> & _) | (-> & _ & _ & Hc)]; simpl.
      * exact Hfifo.
      * rewrite <- Hfifo, Hc. reflexivity.
Qed.

(** ** Initialisation *)

Lemma rb_init_ok c0 size junk (h0 : heap) :
  rb_init c0 size (AllocOk junk) h0 =
  Done {| buffer := Ptr (fresh (dom h0)); head := 0; tail := 0;
          maxlen := size |}
       (<[fresh (dom h0) :=
            junk <$> seq 0 (Z.to_nat (size_mul size SIZEOF_UINT8))]> h0)
       [EvMalloc (size_mul size SIZEOF_UINT8) (Ptr (fresh (dom h0)))].
Proof. reflexivity. Qed.

Lemma rb_init_fail c0 size (h0 : heap) :
  rb_init c0 size AllocFail h0 =
  Done {| buffer := NULL; head := 0; tail := 0; maxlen := size |}
       h0 [EvMalloc (size_mul size SIZEOF_UINT8) NULL].
Proof. reflexivity. Qed.

Lemma rb_init_done c0 size a h0 c h t :
  rb_init c0 size a h0 = Done c h t ->
  head c = 0 /\ tail c = 0 /\ maxlen c = size.
Proof.
  destruct a as [| junk].
  - rewrite rb_init_fail. intros [= <- <- <-]. repeat split.
  - rewrite rb_init_ok. intros [= <- <- <-]. repeat split.
Qed.

(** A successful [rb_init] establishes the invariant with nothing queued. *)
Lemma rb_init_inv c0 size junk (h0 : heap) c h t :
  size_ok size ->
  rb_init c0 size (AllocOk junk) h0 = Done c h t ->
  rb_inv c h /\ maxlen c = size /\ head c = 0 /\ tail c = 0 /\
  contents c h = [].
Proof.
  intros Hsz. rewrite rb_init_ok. intros [= <- <- <-].
  assert (contents
            {| buffer := Ptr (fresh (dom h0)); head := 0; tail := 0;
               maxlen := size |}
            (<[fresh (dom h0) :=
                 junk <$> seq 0 (Z.to_nat (size_mul size SIZEOF_UINT8))]> h0)
          = []) as Hc.
  { unfold contents, queue, count. simpl.
    rewrite Z.sub_0_r, Z.add_0_l.
    destruct (Z.eq_dec size 0) as [-> | Hne]; [reflexivity |].
    rewrite Z.mod_same by exact Hne. reflexivity. }
  split; [| repeat split; exact Hc].
  split; [exact Hsz |]. simpl.
  destruct (Z.eq_dec size 0) as [-> | Hne]; [left; auto |]. right.
  split; [unfold in_range; simpl; unfold size_ok in Hsz; lia |].
  eexists. split.
  - unfold storage. simpl. apply lookup_insert_eq.
  - rewrite length_fmap, length_seq, size_mul_sizeof by exact Hsz.
    simpl. unfold size_ok in Hsz. lia.
Qed.

Lemma pushed_app log1 log2 : pushed (log1 ++ log2) = pushed log1 ++ pushed log2.
Proof.
  induction log1 as [| e log1 IH]; simpl; [reflexivity |].
  destruct (e_call e); [destruct (e_ret e =? 0) |]; rewrite IH; reflexivity.
Qed.

Lemma popped_app log1 log2 : popped (log1 ++ log2) = popped log1 ++ popped log2.
Proof.
  induction log1 as [| e log1 IH]; simpl; [reflexivity |].
  destruct (e_call e); [| destruct (e_ret e =? 0)]; rewrite IH; reflexivity.
Qed.

Lemma run_app ks1 ks2 :
  forall c out h c1 out1 log1 h1 t1 c2 out2 log2 h2 t2,
    run ks1 c out h = Done (c1, out1, log1) h1 t1 ->
    run ks2 c1 out1 h1 = Done (c2, out2, log2) h2 t2 ->
    run (ks1 ++ ks2) c out h = Done (c2, out2, log1 ++ log2) h2 (t1 ++ t2).
Proof.
  induction ks1 as [| k ks1 IH];
    intros c out h c1 out1 log1 h1 t1 c2 out2 log2 h2 t2 H1 H2.
  - simpl in H1. unfold_M. injection H1 as <- <- <- <- <-. exact H2.
  - apply run_cons_done in H1
      as (r & ca & outa & ha & ta & log' & tb & Hk & Hrest & -> & ->).
    simpl app. rewrite <- app_assoc.
    apply (run_cons _ _ _ _ _ _ _ _ _ _ _ _ _ _ _ Hk).
    apply (IH _ _ _ _ _ _ _ _ _ _ _ _ _ Hrest H2).
Qed.

(** A run of consecutive pushes: the first [maxlen - 1 - count] succeed
    and every later one is refused. *)
Lemma run_pushes ds :
  forall c out h, rb_inv c h ->
  exists c' h' log t,
    run (Push <$> ds) c out h = Done (c', out, log) h' t /\
    rb_inv c' h' /\ maxlen c' = maxlen c /\
    let m := Nat.min (length ds) (Z.to_nat (maxlen c - 1 - count c)) in
    e_ret <$> log = replicate m 0 ++ replicate (length ds - m) (-1) /\
    pushed log = take m ds /\
    count c' = count c + Z.of_nat m /\
    contents c' h' = contents c h ++ take m ds /\
    popped log = [].
Proof.
  induction ds as [| d ds IH]; intros c out h Hinv.
  - exists c, h, [], []. split; [reflexivity |].
    split; [exact Hinv |]. split; [reflexivity |]. simpl.
    rewrite app_nil_r. repeat split; lia.
  - destruct (rb_push_step c d h Hinv)
      as (r & c1 & h1 & t1 & Hp & Hinv1 & Hm1 & _ & Hcase).
    destruct (IH c1 out h1 Hinv1)
      as (c2 & h2 & log & t2 & Hrun & Hinv2 & Hm2 & Hret & Hpu & Hcnt & Hcon
          & Hpo).
    exists c2, h2, ({| e_call := Push d; e_ret := r; e_out := out |} :: log),
      (t1 ++ t2).
    split; [apply (run_cons _ _ _ _ _ _ _ _ _ _ _ _ _ _ _
                     (do_call_push _ _ out _ _ _ _ _ Hp) Hrun) |].
    split; [exact Hinv2 |]. split; [congruence |].
    cbv zeta in *.
    destruct Hcase as [(-> & -> & -> & _ & Hfull) | (-> & Hroom & Hc1 & Hcon1)].
    + replace (Z.to_nat (maxlen c - 1 - count c)) with O in * by lia.
      rewrite Nat.min_0_r in *. simpl in *.
      rewrite Nat.sub_0_r in Hret.
      split; [f_equal; exact Hret |]. repeat split; assumption.
    + rewrite Hm1, Hc1 in *.
      replace (Z.to_nat (maxlen c - 1 - count c))
        with (S (Z.to_nat (maxlen c - 1 - (count c + 1)))) by lia.
      simpl length. rewrite <- Nat.succ_min_distr.
      set (m := Nat.min (length ds)
                  (Z.to_nat (maxlen c - 1 - (count c + 1)))) in *.
      simpl. rewrite Hpu, Hcon, Hcon1, <- app_assoc.
      split; [f_equal; exact Hret |].
      repeat split; try reflexivity; [lia | exact Hpo].
Qed.

(** A run of consecutive pops on at least as many queued bytes: all
    succeed and deliver the oldest bytes in order. *)
Lemma run_pops n :
  forall c out h, rb_inv c h -> Z.of_nat n <= count c ->
  exists c' out' log t,
    run (replicate n Pop) c out h = Done (c', out', log) h t /\
    rb_inv c' h /\ maxlen c' = maxlen c /\
    e_ret <$> log = replicate n 0 /\
    count c' = count c - Z.of_nat n /\
    contents c h = popped log ++ contents c' h /\
    pushed log = [].
Proof.
  induction n as [| n IH]; intros c out h Hinv Hn.
  - exists c, out, [], []. split; [reflexivity |].
    split; [exact Hinv |]. repeat split; simpl; lia.
  - destruct (rb_pop_step c out h Hinv)
      as (r & c1 & out1 & t1 & Hp & Hinv1 & Hm1 & _ & Hcase).
    destruct Hcase as [(_ & _ & _ & _ & Hz) | (-> & Hpos & Hc1 & Hcon1)];
      [lia |].
    destruct (IH c1 out1 h Hinv1 ltac:(lia))
      as (c2 & out2 & log & t2 & Hrun & Hinv2 & Hm2 & Hret & Hcnt & Hcon
          & Hpu).
    exists c2, out2, ({| e_call := Pop; e_ret := 0; e_out := out1 |} :: log),
      (t1 ++ t2).
    split; [apply (run_cons Pop _ _ _ _ _ _ _ _ _ _ _ _ _ _ Hp Hrun) |].
    split; [exact Hinv2 |]. split; [congruence |].
    simpl. rewrite Hcon1, Hcon.
    split; [f_equal; exact Hret |].
    repeat split; try reflexivity; [lia | exact Hpu].
Qed.

(** ** Release *)

Lemma rb_clean_done c h c' h' t :
  rb_clean c h = Done c' h' t ->
  c' = {| buffer := NULL; head := 0; tail := 0; maxlen := 0 |}.
Proof.
  unfold rb_clean. unfold_M.
  destruct (buffer c) as [| b]; simpl.
  - intros [= <- <- <-]. reflexivity.
  - destruct (h !! b); [| discriminate]. intros [= <- <- <-]. reflexivity.
Qed.

Lemma rb_clean_null c h :
  buffer c = NULL ->
  rb_clean c h =
  Done {| buffer := NULL; head := 0; tail := 0; maxlen := 0 |} h [].
Proof. intros Hb. unfold rb_clean. rewrite Hb. reflexivity. Qed.

Lemma rb_clean_live c (h : heap) b l :
  buffer c = Ptr b -> h !! b = Some l ->
  rb_clean c h =
  Done {| buffer := NULL; head := 0; tail := 0; maxlen := 0 |}
       (delete b h) [EvFree (Ptr b)].
Proof.
  intros Hb Hl. unfold rb_clean. unfold_M. rewrite Hb. simpl.
  rewrite Hl. reflexivity.
Qed.

(** ** States the operations can produce *)

Lemma api_reachable_zero_capacity c h :
  api_reachable c h -> maxlen c = 0 -> head c = 0 /\ tail c = 0.
Proof.
  induction 1 as [c0 h0 size a c h t _ Hi
                 | c0 h0 size a c h t _ _ _ Hi
                 | c0 h0 d r c h t _ IH Hp
                 | c0 h0 out r out' c h t _ IH Hp
                 | c0 h0 c h t _ _ Hc]; intros Hm.
  - apply rb_init_done in Hi as (Hh & Ht & _). auto.
  - apply rb_init_done in Hi as (Hh & Ht & _). auto.
  - apply rb_push_done in Hp
      as [(_ & _ & -> & _) | (_ & Hne & b & l & _ & _ & _ & -> & _)].
    + apply IH, Hm.
    + simpl in Hm. destruct (IH Hm) as [Hh Ht]. exfalso. apply Hne.
      rewrite Hm, Ht. apply succ_wrap_zero.
  - apply rb_pop_done in Hp
      as [(_ & _ & -> & _) | (_ & Hne & b & l & _ & _ & _ & _ & -> & _)].
    + apply IH, Hm.
    + simpl in Hm. destruct (IH Hm) as [Hh Ht]. exfalso. apply Hne. lia.
  - apply rb_clean_done in Hc as ->. auto.
Qed.

(** ** Refinement of the specification's modulo arithmetic *)

(** On cursors inside the buffer the code is the push of the
    specification's wording. *)
Lemma rb_push_modulo_agrees c d h :
  size_ok (maxlen c) -> in_range c ->
  rb_push c d h = rb_push_modulo c d h.
Proof.
  intros Hsz [Hh Ht]. rewrite rb_push_unfold. unfold rb_push_modulo.
  rewrite (succ_wrap_mod (head c) (maxlen c) Hh (size_ok_le _ Hsz)).
  destruct (Z.eqb_spec (maxlen c) 0); [lia | reflexivity].
Qed.

(** With no capacity the specification's push divides by zero. *)
Lemma rb_push_modulo_zero_capacity c d h :
  maxlen c = 0 -> rb_push_modulo c d h = Undef.
Proof. intros Hm. unfold rb_push_modulo. rewrite Hm. reflexivity. Qed.

(** ** Sessions *)

Lemma session_cons size a ks c0 out0 h0 c1 h1 t1 r h2 t2 :
  rb_init c0 size a h0 = Done c1 h1 t1 ->
  run ks c1 out0 h1 = Done r h2 t2 ->
  session size a ks c0 out0 h0 = Done r h2 (t1 ++ t2).
Proof.
  intros H1 H2. unfold session. unfold_M. rewrite H1, H2. reflexivity.
Qed.

Lemma session_done size a ks c0 out0 h0 r h2 t :
  session size a ks c0 out0 h0 = Done r h2 t ->
  exists c1 h1 t1 t2,
    rb_init c0 size a h0 = Done c1 h1 t1 /\
    run ks c1 out0 h1 = Done r h2 t2 /\ t = t1 ++ t2.
Proof.
  unfold session. unfold_M.
  destruct (rb_init c0 size a h0) as [c1 h1 t1 |]; [| discriminate].
  destruct (run ks c1 out0 h1) as [r' h' t' |] eqn:Hrun; [| discriminate].
  intros [= <- <- <-]. exists c1, h1, t1, t'. repeat split; auto.
Qed.

(** After a successful [rb_init], every sequence of calls completes; the
    final state satisfies the invariant and the bytes pushed are the bytes
    popped followed by the bytes still queued. *)
Lemma session_ok size junk ks c0 out0 (h0 : heap) :
  size_ok size ->
  exists c out log h t,
    session size (AllocOk junk) ks c0 out0 h0 = Done (c, out, log) h t /\
    rb_inv c h /\ maxlen c = size /\
    pushed log = popped log ++ contents c h.
Proof.
  intros Hsz.
  destruct (rb_init c0 size (AllocOk junk) h0) as [c1 h1 t1 |] eqn:Hi;
    [| rewrite rb_init_ok in Hi; discriminate].
  destruct (rb_init_inv _ _ _ _ _ _ _ Hsz Hi)
    as (Hinv & Hm & _ & _ & Hc).
  destruct (run_fifo ks c1 out0 h1 Hinv)
    as (c & out & log & h & t & Hrun & Hinv' & Hm' & _ & Hfifo).
  exists c, out, log, h, (t1 ++ t).
  split; [apply (session_cons _ _ _ _ _ _ _ _ _ _ _ _ Hi Hrun) |].
  split; [exact Hinv' |]. split; [congruence |].
  rewrite Hc in Hfifo. exact Hfifo.
Qed.

Lemma do_call_range k c out h r c' out' h' t :
  do_call k c out h = Done (r, c', out') h' t ->
  size_ok (maxlen c) -> in_range c ->
  in_range c' /\ maxlen c' = maxlen c.
Proof.
  intros H Hsz Hr. pose proof (size_ok_le _ Hsz) as HC.
  destruct k as [d |].
  - apply do_call_push_done in H as [H _].
    apply rb_push_done in H
      as [(_ & _ & -> & _) | (_ & _ & b & l & _ & _ & _ & -> & _)].
    + split; [exact Hr | reflexivity].
    + split; [apply (advance_head_range c Hr HC) | reflexivity].
  - simpl in H. apply rb_pop_done in H
      as [(_ & _ & -> & _) | (_ & _ & b & l & _ & _ & _ & _ & -> & _)].
    + split; [exact Hr | reflexivity].
    + split; [apply (advance_tail_range c Hr HC) | reflexivity].
Qed.

Lemma run_range ks :
  forall c out h c' out' log h' t,
    run ks c out h = Done (c', out', log) h' t ->
    size_ok (maxlen c) -> in_range c ->
    in_range c' /\ maxlen c' = maxlen c.
Proof.
  induction ks as [| k ks IH]; intros c out h c' out' log h' t H Hsz Hr.
  - simpl in H. unfold_M. injection H as <- <- <- <- <-.
    split; [exact Hr | reflexivity].
  - apply run_cons_done in H
      as (r & c1 & out1 & h1 & t1 & log' & t2 & Hk & Hrest & _ & _).
    destruct (do_call_range _ _ _ _ _ _ _ _ _ Hk Hsz Hr) as [Hr1 Hm1].
    rewrite <- Hm1 in Hsz.
    destruct (IH _ _ _ _ _ _ _ _ Hrest Hsz Hr1) as [Hr2 Hm2].
    split; [exact Hr2 | congruence].
Qed.

Lemma inv_empty c h :
  rb_inv c h -> head c = tail c -> count c = 0 /\ contents c h = [].
Proof.
  intros Hinv E.
  assert (count c = 0) as Hz.
  { destruct Hinv as [_ [(Hm & Hh & Ht) | (Hr & _)]].
    - apply (contents_degenerate c h Hm Hh Ht).
    - apply (count_zero c Hr), E. }
  split; [exact Hz |].
  pose proof (contents_length c h Hinv) as Hl. rewrite Hz in Hl.
  destruct (contents c h); [reflexivity | simpl in Hl; lia].
Qed.

(** * The claims *)

(** C1 (capacity bound).  Take a buffer initialised with capacity [C >= 2]
    (the allocation succeeded) and any prior sequence [ks] of push and pop
    calls.  The session completes; in the state it reaches, the occupied
    element count, which is the number of successful pushes minus the
    number of successful pops, is at most [C - 1]; and every run [ds] of
    consecutive pushes from that state completes with its first
    [m = min (length ds) (C - 1 - count)] pushes returning 0 and all later
    ones returning -1 (Full), so it has at most [C - 1] successes. *)
Theorem capacity_bound (C : Z) (junk : nat -> byte) (ks : list call)
    (c0 : t_rb) (out0 : byte) (h0 : heap) :
  2 <= C -> size_ok C ->
  exists c out log h t,
    session C (AllocOk junk) ks c0 out0 h0 = Done (c, out, log) h t /\
    Z.of_nat (length (pushed log)) - Z.of_nat (length (popped log))
      = count c /\
    0 <= count c <= C - 1 /\
    forall (ds : list byte) (out1 : byte),
    exists c' h' log' t',
      run (Push <$> ds) c out1 h = Done (c', out1, log') h' t' /\
      let m := Nat.min (length ds) (Z.to_nat (C - 1 - count c)) in
      e_ret <$> log' = replicate m 0 ++ replicate (length ds - m) (-1) /\
      pushed log' = take m ds /\
      Z.of_nat m <= C - 1 /\
      count c' = count c + Z.of_nat m.
Proof.
  intros HC Hsz.
  destruct (session_ok C junk ks c0 out0 h0 Hsz)
    as (c & out & log & h & t & Hs & Hinv & Hm & Hfifo).
  exists c, out, log, h, t. split; [exact Hs |].
  assert (in_range c) as Hr.
  { destruct Hinv as [_ [(Hz & _) | (Hr & _)]]; [lia | exact Hr]. }
  pose proof (count_range c Hr) as Hcnt. rewrite Hm in Hcnt.
  split.
  { rewrite Hfifo, length_app, <- (contents_length c h Hinv). lia. }
  split; [exact Hcnt |].
  intros ds out1.
  destruct (run_pushes ds c out1 h Hinv)
    as (c' & h' & log' & t' & Hrun & _ & _ & Hret & Hpu & Hc' & _ & _).
  exists c', h', log', t'. split; [exact Hrun |].
  cbv zeta in *. rewrite Hm in *.
  split; [exact Hret |]. split; [exact Hpu |]. split; [lia | exact Hc'].
Qed.

(** C2 (FIFO order).  On a buffer initialised with any capacity (the
    allocation succeeded), every sequence of push and pop calls completes,
    and the bytes given to the successful pushes are, in order, the bytes
    returned by the successful pops followed by the bytes still queued:
    the [i]-th byte popped is the [i]-th byte pushed, and once the buffer
    is empty again the two sequences are equal. *)
Theorem fifo_order (C : Z) (junk : nat -> byte) (ks : list call)
    (c0 : t_rb) (out0 : byte) (h0 : heap) :
  size_ok C ->
  exists c out log h t,
    session C (AllocOk junk) ks c0 out0 h0 = Done (c, out, log) h t /\
    pushed log = popped log ++ contents c h /\
    (forall (i : nat) (b : byte),
       popped log !! i = Some b -> pushed log !! i = Some b) /\
    (head c = tail c -> popped log = pushed log).
Proof.
  intros Hsz.
  destruct (session_ok C junk ks c0 out0 h0 Hsz)
    as (c & out & log & h & t & Hs & Hinv & Hm & Hfifo).
  exists c, out, log, h, t. split; [exact Hs |].
  split; [exact Hfifo |]. split.
  - intros i b Hi. rewrite Hfifo. apply lookup_app_l_Some. exact Hi.
  - intros E. destruct (inv_empty c h Hinv E) as [_ Hnil].
    rewrite Hfifo, Hnil, app_nil_r. reflexivity.
Qed.

(** C6 (wraparound correctness).  After [rb_init] with a capacity
    [C >= 1], whatever the allocator answered, the state reached by any
    finite sequence of push and pop calls, succeeding or failing, has
    [maxlen = C], [0 <= head < C] and [0 <= tail < C]. *)
Theorem cursors_in_range (C : Z) (a : alloc) (ks : list call)
    (c0 : t_rb) (out0 : byte) (h0 : heap)
    (c : t_rb) (out : byte) (log : list entry) (h : heap) (t : list event) :
  1 <= C -> size_ok C ->
  session C a ks c0 out0 h0 = Done (c, out, log) h t ->
  maxlen c = C /\ 0 <= head c < C /\ 0 <= tail c < C.
Proof.
  intros HC Hsz Hs.
  apply session_done in Hs as (c1 & h1 & t1 & t2 & Hi & Hrun & _).
  apply rb_init_done in Hi as (Hh & Ht & Hm).
  assert (in_range c1) as Hr1 by (unfold in_range; lia).
  rewrite <- Hm in Hsz.
  destruct (run_range _ _ _ _ _ _ _ _ _ Hrun Hsz Hr1) as [[Hh' Ht'] Hm'].
  rewrite Hm', Hm in *. auto.
Qed.

(** C7 (empty after drain).  In any state a session on a buffer of
    capacity [C] reaches with [head = tail], pushing [k <= C - 1] bytes
    and then popping [k] times completes with every call returning 0, the
    pops deliver the bytes pushed, the final state again has
    [head = tail], and the next [rb_pop] returns -1 (Empty). *)
Theorem empty_after_drain (C : Z) (junk : nat -> byte) (ks : list call)
    (c0 : t_rb) (out0 : byte) (h0 : heap)
    (c : t_rb) (out : byte) (log : list entry) (h : heap) (t : list event)
    (ds : list byte) :
  size_ok C ->
  session C (AllocOk junk) ks c0 out0 h0 = Done (c, out, log) h t ->
  head c = tail c ->
  Z.of_nat (length ds) <= C - 1 ->
  exists c' out' log' h' t',
    run ((Push <$> ds) ++ replicate (length ds) Pop) c out h
      = Done (c', out', log') h' t' /\
    e_ret <$> log' = replicate (length ds + length ds) 0 /\
    pushed log' = ds /\ popped log' = ds /\
    head c' = tail c' /\
    rb_pop c' out' h' = Done (-1, c', out') h' [].
Proof.
  intros Hsz Hs E Hk.
  destruct (session_ok C junk ks c0 out0 h0 Hsz)
    as (c_ & out_ & log_ & h_ & t_ & Hs' & Hinv & Hm & _).
  rewrite Hs in Hs'. injection Hs' as <- <- <- <- <-.
  destruct (inv_empty c h Hinv E) as [Hz Hnil].
  destruct (run_pushes ds c out h Hinv)
    as (c1 & h1 & log1 & t1 & Hrun1 & Hinv1 & Hm1 & Hret1 & Hpu1 & Hc1 & Hcon1
        & Hpo1).
  cbv zeta in *. rewrite Hm, Hz, Z.sub_0_r in *.
  replace (Nat.min (length ds) (Z.to_nat (C - 1))) with (length ds) in * by lia.
  rewrite Nat.sub_diag, app_nil_r, firstn_all in *. simpl in Hc1.
  rewrite Hnil in Hcon1. simpl in Hcon1.
  destruct (run_pops (length ds) c1 out h1 Hinv1 ltac:(lia))
    as (c2 & out2 & log2 & t2 & Hrun2 & Hinv2 & Hm2 & Hret2 & Hc2 & Hcon2
        & Hpu2).
  exists c2, out2, (log1 ++ log2), h1, (t1 ++ t2).
  split; [apply (run_app _ _ _ _ _ _ _ _ _ _ _ _ _ _ _ Hrun1 Hrun2) |].
  assert (contents c2 h1 = []) as Hnil2.
  { pose proof (contents_length c2 h1 Hinv2) as Hl.
    destruct (contents c2 h1); [reflexivity | simpl in Hl; lia]. }
  assert (head c2 = tail c2) as E2.
  { destruct Hinv2 as [_ [(_ & -> & ->) | (Hr & _)]]; [reflexivity |].
    apply (count_zero c2 Hr). lia. }
  split; [rewrite fmap_app, Hret1, Hret2, replicate_add; reflexivity |].
  rewrite Hnil2, app_nil_r, Hcon1 in Hcon2.
  split; [| split; [| split; [exact E2 | apply rb_pop_empty; exact E2]]].
  - rewrite pushed_app, Hpu1, Hpu2, app_nil_r. reflexivity.
  - rewrite popped_app, Hpo1, <- Hcon2. reflexivity.
Qed.

(** C3 (no mutation on failure).  Whenever [rb_push] returns -1 (Full)
    the record ([buffer], [head], [tail], [maxlen]) and the whole heap,
    hence every byte of storage, are as before and nothing was accessed;
    whenever [rb_pop] returns -1 (Empty) the record, the heap and the
    caller's output byte are as before and nothing was accessed. *)
Theorem no_mutation_on_failure :
  (forall c d h c' h' t,
     rb_push c d h = Done (-1, c') h' t ->
     c' = c /\ h' = h /\ t = []) /\
  (forall c out h c' out' h' t,
     rb_pop c out h = Done (-1, c', out') h' t ->
     c' = c /\ out' = out /\ h' = h /\ t = []).
Proof.
  split.
  - intros c d h c' h' t H.
    apply rb_push_done in H as [(_ & _ & -> & -> & ->) | (F & _)].
    + repeat split.
    + discriminate F.
  - intros c out h c' out' h' t H.
    apply rb_pop_done in H as [(_ & _ & -> & -> & -> & ->) | (F & _)].
    + repeat split.
    + discriminate F.
Qed.

(** C4 (push).  In a state whose cursors lie in [[0, maxlen)]: [rb_push]
    returns -1 (Full) exactly when [(head + 1) mod maxlen = tail], and
    then it leaves everything as it was without any memory access, even
    when [buffer] is not a valid pointer (the test precedes the write);
    otherwise, with [buffer] a live block of [maxlen] bytes, it stores
    the byte in cell [head], sets [head] to [(head + 1) mod maxlen] and
    returns 0; the store is its only memory access. *)
Theorem push_contract (c : t_rb) (d : byte) (h : heap) :
  size_ok (maxlen c) -> in_range c ->
  ((exists c' h' t, rb_push c d h = Done (-1, c') h' t) <->
   (head c + 1) mod maxlen c = tail c) /\
  ((head c + 1) mod maxlen c = tail c ->
   rb_push c d h = Done (-1, c) h []) /\
  ((head c + 1) mod maxlen c <> tail c ->
   forall b l,
     buffer c = Ptr b -> h !! b = Some l ->
     Z.of_nat (length l) = maxlen c ->
     rb_push c d h =
     Done (0, {| buffer := buffer c; head := (head c + 1) mod maxlen c;
                 tail := tail c; maxlen := maxlen c |})
          (<[b := <[Z.to_nat (head c) := d]> l]> h)
          [EvStore b (head c) d]).
Proof.
  intros Hsz Hr. pose proof (size_ok_le _ Hsz) as HC.
  destruct Hr as [Hh Ht].
  rewrite <- (succ_wrap_mod (head c) (maxlen c) Hh HC).
  split; [split |]; [| | split].
  - intros (c' & h' & t & H).
    apply rb_push_done in H as [(_ & E & _) | (F & _)];
      [exact E | discriminate F].
  - intros E. exists c, h, []. apply rb_push_full. exact E.
  - apply rb_push_full.
  - intros E b l Hb Hl Hlen. apply rb_push_room; try assumption. lia.
Qed.

(** C5 (pop).  In every state [rb_pop] returns -1 (Empty) exactly when
    [head = tail], and then changes and accesses nothing.  Otherwise,
    with [buffer] a live block of [maxlen] bytes whose cell [tail] holds
    [v], it delivers [v] in the output byte, sets [tail] to
    [(tail + 1) mod maxlen] and returns 0; the load is its only memory
    access. *)
Theorem pop_contract (c : t_rb) (out : byte) (h : heap) :
  ((exists c' out' h' t, rb_pop c out h = Done (-1, c', out') h' t) <->
   head c = tail c) /\
  (head c = tail c -> rb_pop c out h = Done (-1, c, out) h []) /\
  (head c <> tail c ->
   forall b l v,
     size_ok (maxlen c) -> 0 <= tail c ->
     buffer c = Ptr b -> h !! b = Some l ->
     Z.of_nat (length l) = maxlen c ->
     l !! Z.to_nat (tail c) = Some v ->
     rb_pop c out h =
     Done (0, {| buffer := buffer c; head := head c;
                 tail := (tail c + 1) mod maxlen c;
                 maxlen := maxlen c |}, v)
          h [EvLoad b (tail c)]).
Proof.
  split; [split |]; [| | split].
  - intros (c' & out' & h' & t & H).
    apply rb_pop_done in H as [(_ & E & _) | (F & _)];
      [exact E | discriminate F].
  - intros E. exists c, out, h, []. apply rb_pop_empty. exact E.
  - apply rb_pop_empty.
  - intros E b l v Hsz Ht Hb Hl Hlen Hv.
    pose proof (lookup_lt_Some _ _ _ Hv) as Hlt.
    rewrite <- (succ_wrap_mod (tail c) (maxlen c))
      by (try apply size_ok_le; try assumption; lia).
    apply (rb_pop_some c out h b l v); assumption.
Qed.

(** C8 (idempotent release).  A completed [rb_clean] leaves
    [buffer = NULL] and [head = tail = maxlen = 0].  It completes without
    calling [free] when [buffer] is [NULL], and with one [free] when
    [buffer] is a live block.  Applied to the state it has just produced
    it completes, changes nothing and calls [free] no more: [rb_clean]
    twice is [rb_clean] once, trace of memory events included. *)
Theorem clean_idempotent :
  (forall c h c' h' t,
     rb_clean c h = Done c' h' t ->
     c' = {| buffer := NULL; head := 0; tail := 0; maxlen := 0 |}) /\
  (forall c h,
     buffer c = NULL ->
     rb_clean c h =
     Done {| buffer := NULL; head := 0; tail := 0; maxlen := 0 |} h []) /\
  (forall c (h : heap) b l,
     buffer c = Ptr b -> h !! b = Some l ->
     rb_clean c h =
     Done {| buffer := NULL; head := 0; tail := 0; maxlen := 0 |}
          (delete b h) [EvFree (Ptr b)]) /\
  (forall c h c' h' t,
     rb_clean c h = Done c' h' t -> rb_clean c' h' = Done c' h' []) /\
  (forall c h, (c' ← rb_clean c ; rb_clean c') h = rb_clean c h).
Proof.
  split; [exact rb_clean_done |]. split; [exact rb_clean_null |].
  split; [exact rb_clean_live |]. split.
  - intros c h c' h' t H. rewrite (rb_clean_done _ _ _ _ _ H).
    apply rb_clean_null. reflexivity.
  - intros c h. unfold mbind at 1. unfold M_bind.
    destruct (rb_clean c h) as [c' h' t |] eqn:H; [| reflexivity].
    rewrite (rb_clean_done _ _ _ _ _ H), rb_clean_null by reflexivity.
    rewrite app_nil_r. reflexivity.
Qed.

(** C9 (no capacity), as amended.  In a state with [maxlen = 0] and
    [head = tail = 0], [rb_push] returns -1 (Full) and [rb_pop] returns -1
    (Empty) with any heap and any [buffer] pointer, valid or not; both
    complete, access no memory and leave the record, the heap and the
    output byte unchanged.  The wrap-around is a comparison, so nothing
    is divided by the zero capacity.  Every state with [maxlen = 0] that
    [rb_init], [rb_push], [rb_pop] and [rb_clean] can produce is such a
    state, in particular the one after [rb_init] with size 0 and the one
    after [rb_clean]. *)
Theorem zero_capacity_refuses :
  (forall c h d out,
     maxlen c = 0 -> head c = 0 -> tail c = 0 ->
     rb_push c d h = Done (-1, c) h [] /\
     rb_pop c out h = Done (-1, c, out) h []) /\
  (forall c h,
     api_reachable c h -> maxlen c = 0 -> head c = 0 /\ tail c = 0) /\
  (forall c0 a h0 c h t,
     rb_init c0 0 a h0 = Done c h t ->
     maxlen c = 0 /\ head c = 0 /\ tail c = 0) /\
  (forall c0 h0 c h t,
     rb_clean c0 h0 = Done c h t ->
     maxlen c = 0 /\ head c = 0 /\ tail c = 0).
Proof.
  split; [| split; [exact api_reachable_zero_capacity | split]].
  - intros c h d out Hm Hh Ht. split.
    + apply rb_push_full. rewrite Hm, Ht. apply succ_wrap_zero.
    + apply rb_pop_empty. lia.
  - intros c0 a h0 c h t H.
    apply rb_init_done in H as (Hh & Ht & Hm). auto.
  - intros c0 h0 c h t H. apply rb_clean_done in H as ->. auto.
Qed.

(** C10 (frame).  A completed [rb_push] keeps [tail], [maxlen] and
    [buffer]; it leaves every other block of the heap as it was, and in
    the block [buffer] points to it keeps the length and every cell but
    the one at the old [head]; its only possible memory access is the
    store of the byte there.  A completed [rb_pop] keeps [head], [maxlen],
    [buffer] and the whole heap, the popped cell included, and performs
    no store. *)
Theorem frame_effect :
  (forall c d h r c' h' t,
     rb_push c d h = Done (r, c') h' t ->
     tail c' = tail c /\ maxlen c' = maxlen c /\ buffer c' = buffer c /\
     (forall b, buffer c <> Ptr b -> h' !! b = h !! b) /\
     (forall b l, buffer c = Ptr b -> h !! b = Some l ->
        exists l', h' !! b = Some l' /\ length l' = length l /\
          forall i : nat, i <> Z.to_nat (head c) -> l' !! i = l !! i) /\
     (t = [] \/ exists b, buffer c = Ptr b /\ t = [EvStore b (head c) d])) /\
  (forall c out h r c' out' h' t,
     rb_pop c out h = Done (r, c', out') h' t ->
     head c' = head c /\ maxlen c' = maxlen c /\ buffer c' = buffer c /\
     h' = h /\
     (t = [] \/ exists b, buffer c = Ptr b /\ t = [EvLoad b (tail c)])).
Proof.
  split.
  - intros c d h r c' h' t H.
    apply rb_push_done in H
      as [(_ & _ & -> & -> & ->)
         | (_ & _ & b0 & l0 & Hb & Hl & _ & -> & -> & ->)].
    + repeat split; auto. intros b l _ Hl. exists l. auto.
    + simpl. repeat split; auto.
      * intros b Hne. apply lookup_insert_ne. congruence.
      * intros b l Hb' Hl'.
        assert (b = b0) as -> by congruence.
        assert (l = l0) as -> by congruence.
        exists (<[Z.to_nat (head c) := d]> l0).
        split; [apply lookup_insert_eq |].
        split; [apply length_insert |].
        intros i Hi. apply list_lookup_insert_ne. congruence.
      * right. exists b0. auto.
  - intros c out h r c' out' h' t H.
    apply rb_pop_done in H
      as [(_ & _ & -> & _ & -> & ->)
         | (_ & _ & b0 & l0 & Hb & _ & _ & _ & -> & -> & ->)].
    + repeat split; auto.
    + simpl. repeat split; auto. right. exists b0. auto.
Qed.

(** * The claims on concrete buffers *)

Lemma size_ok_5 : size_ok 5.
Proof. unfold size_ok, SIZE_MOD, SIZE_WIDTH. lia. Qed.

Lemma ex_session :
  session 5 (AllocOk ex_junk) ex_calls ex_blank x00 ∅
  = Done (ex_state, x0a, ex_log) ex_heap ex_trace.
Proof. vm_compute. reflexivity. Qed.

(** The two scenarios of the specification. *)
Example scenario_two_pushes :
  exists c out h t,
    session 5 (AllocOk ex_junk) [Push x0a; Push x14; Pop; Pop; Pop]
      ex_blank x00 ∅
    = Done (c, out,
            [ {| e_call := Push x0a; e_ret := 0; e_out := x00 |};
              {| e_call := Push x14; e_ret := 0; e_out := x00 |};
              {| e_call := Pop; e_ret := 0; e_out := x0a |};
              {| e_call := Pop; e_ret := 0; e_out := x14 |};
              {| e_call := Pop; e_ret := -1; e_out := x14 |} ]) h t.
Proof. do 4 eexists. vm_compute. reflexivity. Qed.

Example scenario_fill_and_drain :
  exists c out log h t,
    session 5 (AllocOk ex_junk)
      [Push x01; Push x02; Push x03; Push x04; Push x05;
       Pop; Pop; Pop; Pop; Pop] ex_blank x00 ∅
    = Done (c, out, log) h t /\
    e_ret <$> log = [0; 0; 0; 0; -1; 0; 0; 0; 0; -1] /\
    pushed log = [x01; x02; x03; x04] /\
    popped log = [x01; x02; x03; x04].
Proof. do 5 eexists. vm_compute. repeat split; reflexivity. Qed.

Lemma capacity_bound_witness :
  exists c out log h t,
    session 5 (AllocOk ex_junk) ex_calls ex_blank x00 ∅
      = Done (c, out, log) h t /\
    0 <= count c <= 5 - 1.
Proof.
  destruct (capacity_bound 5 ex_junk ex_calls ex_blank x00 ∅
              ltac:(lia) size_ok_5)
    as (c & out & log & h & t & Hs & _ & Hc & _).
  exists c, out, log, h, t. split; [exact Hs | exact Hc].
Defined.

Lemma fifo_order_witness :
  exists c out log h t,
    session 5 (AllocOk ex_junk) ex_calls ex_blank x00 ∅
      = Done (c, out, log) h t /\
    pushed log = popped log ++ contents c h.
Proof.
  destruct (fifo_order 5 ex_junk ex_calls ex_blank x00 ∅ size_ok_5)
    as (c & out & log & h & t & Hs & Hf & _).
  exists c, out, log, h, t. split; [exact Hs | exact Hf].
Defined.

Lemma cursors_in_range_witness :
  maxlen ex_state = 5 /\ 0 <= head ex_state < 5 /\ 0 <= tail ex_state < 5.
Proof.
  apply (cursors_in_range 5 (AllocOk ex_junk) ex_calls ex_blank x00 ∅
           ex_state x0a ex_log ex_heap ex_trace).
  - lia.
  - exact size_ok_5.
  - vm_compute. reflexivity.
Defined.

Lemma empty_after_drain_witness :
  exists c' out' log' h' t',
    run ((Push <$> [x01; x02; x03; x04]) ++ replicate 4 Pop)
        ex_drained x0a ex_drained_heap
      = Done (c', out', log') h' t' /\
    popped log' = [x01; x02; x03; x04] /\
    head c' = tail c' /\
    rb_pop c' out' h' = Done (-1, c', out') h' [].
Proof.
  assert (session 5 (AllocOk ex_junk) [Push x0a; Pop] ex_blank x00 ∅
          = Done (ex_drained, x0a, ex_drained_log) ex_drained_heap
                 ex_drained_trace) as Hs
    by (vm_compute; reflexivity).
  assert (head ex_drained = tail ex_drained) as He by reflexivity.
  assert (Z.of_nat (length [x01; x02; x03; x04]) <= 5 - 1) as Hk
    by (simpl; lia).
  destruct (empty_after_drain 5 ex_junk [Push x0a; Pop] ex_blank x00 ∅
              ex_drained x0a ex_drained_log ex_drained_heap ex_drained_trace
              [x01; x02; x03; x04] size_ok_5 Hs He Hk)
    as (c' & out' & log' & h' & t' & Hrun & _ & _ & Hpo & He' & Hp).
  exists c', out', log', h', t'. repeat split; assumption.
Defined.

Lemma no_mutation_on_failure_witness :
  rb_push ex_full x05 ex_full_heap = Done (-1, ex_full) ex_full_heap [] /\
  (ex_full = ex_full /\ ex_full_heap = ex_full_heap /\ @nil event = []).
Proof.
  assert (rb_push ex_full x05 ex_full_heap
          = Done (-1, ex_full) ex_full_heap []) as H
    by (vm_compute; reflexivity).
  split; [exact H |].
  exact (proj1 no_mutation_on_failure _ _ _ _ _ _ H).
Defined.

Lemma push_contract_witness :
  rb_push ex_full x05 ex_full_heap = Done (-1, ex_full) ex_full_heap [] /\
  rb_push ex_state x1e ex_heap
  = Done (0, {| buffer := Ptr 1%positive; head := (2 + 1) mod 5;
                tail := 1; maxlen := 5 |})
         (<[1%positive := <[Z.to_nat 2 := x1e]> [x0a; x14; x00; x00; x00]]>
            ex_heap)
         [EvStore 1%positive 2 x1e].
Proof.
  split.
  - apply (proj1 (proj2 (push_contract ex_full x05 ex_full_heap size_ok_5
                           ltac:(unfold in_range; simpl; lia)))).
    reflexivity.
  - apply (proj2 (proj2 (push_contract ex_state x1e ex_heap size_ok_5
                           ltac:(unfold in_range; simpl; lia)))
             ltac:(simpl; discriminate) 1%positive
             [x0a; x14; x00; x00; x00]);
      reflexivity.
Defined.

Lemma pop_contract_witness :
  rb_pop ex_state x00 ex_heap
  = Done (0, {| buffer := Ptr 1%positive; head := 2;
                tail := (1 + 1) mod 5; maxlen := 5 |}, x14)
         ex_heap [EvLoad 1%positive 1].
Proof.
  apply (proj2 (proj2 (pop_contract ex_state x00 ex_heap))
           ltac:(simpl; discriminate) 1%positive
           [x0a; x14; x00; x00; x00] x14);
    try reflexivity.
  - exact size_ok_5.
  - simpl. lia.
Defined.

Lemma clean_idempotent_witness :
  rb_clean ex_state ex_heap = Done ex_blank ∅ [EvFree (Ptr 1%positive)] /\
  rb_clean ex_blank ∅ = Done ex_blank ∅ [].
Proof.
  assert (rb_clean ex_state ex_heap
          = Done ex_blank ∅ [EvFree (Ptr 1%positive)]) as H
    by (vm_compute; reflexivity).
  split; [exact H |].
  exact (proj1 (proj2 (proj2 (proj2 clean_idempotent))) _ _ _ _ _ H).
Defined.

Lemma zero_capacity_refuses_witness :
  rb_push ex_blank x2a ∅ = Done (-1, ex_blank) ∅ [] /\
  rb_pop ex_blank x00 ∅ = Done (-1, ex_blank, x00) ∅ [].
Proof.
  apply (proj1 zero_capacity_refuses ex_blank ∅ x2a x00); reflexivity.
Defined.

(** C9 as stated fails: with [maxlen = 0], [head = 0] and [tail = 1] the
    candidate next head 0 differs from [tail], so [rb_push] goes on to
    write [buffer[0]]: out of bounds (undefined) when the block has no
    byte, and a store followed by return value 0 when it has one; and
    with [head = 1], [tail = 0] [rb_pop] reads [buffer[0]] and returns 0. *)
Lemma zero_capacity_counterexample :
  maxlen ex_stale = 0 /\
  rb_push ex_stale x2a {[ 1%positive := [] ]} = Undef /\
  rb_push ex_stale x2a {[ 1%positive := [x00] ]}
  = Done (0, {| buffer := Ptr 1%positive; head := 0; tail := 1;
                maxlen := 0 |})
         {[ 1%positive := [x2a] ]} [EvStore 1%positive 0 x2a] /\
  rb_pop {| buffer := Ptr 1%positive; head := 1; tail := 0; maxlen := 0 |}
         x00 {[ 1%positive := [x2a] ]}
  = Done (0, {| buffer := Ptr 1%positive; head := 1; tail := 0;
                maxlen := 0 |}, x2a)
         {[ 1%positive := [x2a] ]} [EvLoad 1%positive 0].
Proof. vm_compute. repeat split; reflexivity. Qed.

Lemma frame_effect_witness :
  exists l' : list byte,
    ({[ 1%positive := [x0a; x14; x1e; x00; x00] ]} : heap) !! 1%positive
      = Some l' /\
    length l' = 5%nat /\
    l' !! 0%nat = Some x0a /\ l' !! 1%nat = Some x14 /\ l' !! 3%nat = Some x00.
Proof.
  assert (rb_push ex_state x1e ex_heap
          = Done (0, {| buffer := Ptr 1%positive; head := 3; tail := 1;
                        maxlen := 5 |})
                 {[ 1%positive := [x0a; x14; x1e; x00; x00] ]}
                 [EvStore 1%positive 2 x1e]) as H
    by (vm_compute; reflexivity).
  destruct (proj1 frame_effect _ _ _ _ _ _ _ H) as (_ & _ & _ & _ & Hcell & _).
  destruct (Hcell 1%positive [x0a; x14; x00; x00; x00]
              ltac:(reflexivity) ltac:(reflexivity))
    as (l' & Hl' & Hlen & Hi).
  exists l'. split; [exact Hl' |]. split; [exact Hlen |].
  split; [apply (Hi 0%nat); simpl; lia |].
  split; [apply (Hi 1%nat); simpl; lia | apply (Hi 3%nat); simpl; lia].
Defined.


(** * Further properties of the code *)

(** ** Heap outside the buffer's block *)

Lemma fresh_block_free (h : heap) : h !! fresh (dom h) = None.
Proof. apply not_elem_of_dom. apply is_fresh. Qed.

Lemma rb_push_off_block c d h r c' h' t b :
  rb_push c d h = Done (r, c') h' t ->
  buffer c = Ptr b ->
  buffer c' = Ptr b /\ delete b h' = delete b h.
Proof.
  intros H Hb.
  apply rb_push_done in H
    as [(_ & _ & -> & -> & _) | (_ & _ & b0 & l0 & Hb0 & _ & _ & -> & -> & _)].
  - split; [exact Hb | reflexivity].
  - assert (b0 = b) as -> by congruence.
    split; [exact Hb | apply delete_insert_eq].
Qed.

Lemma rb_pop_off_block c out h r c' out' h' t :
  rb_pop c out h = Done (r, c', out') h' t ->
  buffer c' = buffer c /\ h' = h.
Proof.
  intros H.
  apply rb_pop_done in H
    as [(_ & _ & -> & _ & -> & _) | (_ & _ & b0 & l0 & _ & _ & _ & _ & -> & -> & _)];
    split; reflexivity.
Qed.

Lemma run_off_block ks :
  forall c out h c' out' log h' t b,
    run ks c out h = Done (c', out', log) h' t ->
    buffer c = Ptr b ->
    buffer c' = Ptr b /\ delete b h' = delete b h.
Proof.
  induction ks as [| k ks IH]; intros c out h c' out' log h' t b H Hb.
  - simpl in H. unfold_M. injection H as <- <- <- <- <-.
    split; [exact Hb | reflexivity].
  - apply run_cons_done in H
      as (r & c1 & out1 & h1 & t1 & log' & t2 & Hk & Hrest & _ & _).
    assert (buffer c1 = Ptr b /\ delete b h1 = delete b h) as [Hb1 Hd1].
    { destruct k as [d |].
      - apply do_call_push_done in Hk as [Hk _].
        apply (rb_push_off_block _ _ _ _ _ _ _ _ Hk Hb).
      - simpl in Hk. apply rb_pop_off_block in Hk as [Hb1 ->].
        split; [congruence | reflexivity]. }
    destruct (IH _ _ _ _ _ _ _ _ _ Hrest Hb1) as [Hb2 Hd2].
    split; [exact Hb2 | congruence].
Qed.

(** ** The drain loop *)

Lemma inv_count_nonneg c h : rb_inv c h -> 0 <= count c.
Proof. intros H. rewrite <- (contents_length c h H). lia. Qed.

Lemma inv_count_zero c h : rb_inv c h -> count c = 0 -> head c = tail c.
Proof.
  intros [_ [(_ & -> & ->) | (Hr & _)]] Hz; [reflexivity |].
  apply (count_zero c Hr), Hz.
Qed.

Lemma last_cons_default {A} (x : A) l d d' :
  List.last (x :: l) d = List.last (x :: l) d'.
Proof.
  revert x. induction l as [| y l IH]; intros x; [reflexivity |].
  change (List.last (y :: l) d = List.last (y :: l) d'). apply IH.
Qed.

Lemma last_cons {A} (x : A) l d : List.last (x :: l) d = List.last l x.
Proof.
  destruct l as [| y l]; [reflexivity |].
  change (List.last (y :: l) d = List.last (y :: l) x).
  apply last_cons_default.
Qed.

Lemma drain_spec fuel :
  forall c data acc h,
    rb_inv c h -> count c < Z.of_nat fuel ->
    exists c' data' t,
      drain fuel c data acc h
      = Done (Some (c', data', acc ++ (printf_popped <$> contents c h))) h t /\
      rb_inv c' h /\ head c' = tail c' /\
      maxlen c' = maxlen c /\ buffer c' = buffer c /\
      data' = List.last (contents c h) data.
Proof.
  induction fuel as [| fuel IH]; intros c data acc h Hinv Hf.
  - pose proof (inv_count_nonneg c h Hinv). lia.
  - destruct (rb_pop_step c data h Hinv)
      as (r & c1 & data1 & t1 & Hp & Hinv1 & Hm1 & Hb1 & Hcase).
    destruct Hcase as [(-> & -> & -> & -> & Hz) | (-> & Hpos & Hc1 & Hcon)].
    + pose proof (inv_count_zero c h Hinv Hz) as E.
      destruct (inv_empty c h Hinv E) as [_ Hnil].
      exists c, data, []. simpl. unfold_M. rewrite Hp. simpl.
      rewrite Hnil. simpl. rewrite app_nil_r.
      split; [reflexivity |]. split; [exact Hinv |]. split; [exact E |].
      repeat split; reflexivity.
    + destruct (IH c1 data1 (acc ++ [printf_popped data1]) h Hinv1 ltac:(lia))
        as (c2 & data2 & t2 & Hd & Hinv2 & E2 & Hm2 & Hb2 & Hl2).
      exists c2, data2, (t1 ++ t2). simpl. unfold_M. rewrite Hp. simpl.
      rewrite Hd, Hcon. simpl. rewrite <- app_assoc. simpl.
      split; [reflexivity |]. split; [exact Hinv2 |]. split; [exact E2 |].
      split; [congruence |]. split; [congruence |].
      rewrite Hl2. symmetry. apply last_cons.
Qed.

Lemma bind_done {A B} (m : M A) (f : A -> M B) h a h1 t1 b h2 t2 :
  m h = Done a h1 t1 -> f a h1 = Done b h2 t2 ->
  (m ≫= f) h = Done b h2 (t1 ++ t2).
Proof. intros H1 H2. unfold_M. rewrite H1, H2. reflexivity. Qed.

Lemma bind_undef_r {A B} (m : M A) (f : A -> M B) h a h1 t1 :
  m h = Done a h1 t1 -> f a h1 = Undef -> (m ≫= f) h = Undef.
Proof. intros H1 H2. unfold_M. rewrite H1, H2. reflexivity. Qed.

Lemma drain_more fuel c data acc h c' v h' t res h'' t' :
  rb_pop c data h = Done (0, c', v) h' t ->
  drain fuel c' v (acc ++ [printf_popped v]) h' = Done res h'' t' ->
  drain (S fuel) c data acc h = Done res h'' (t ++ t').
Proof. intros H1 H2. simpl. unfold_M. rewrite H1. simpl. rewrite H2. reflexivity. Qed.

Lemma drain_stop fuel c data acc h c' v h' t :
  rb_pop c data h = Done (-1, c', v) h' t ->
  drain (S fuel) c data acc h = Done (Some (c', v, acc)) h' (t ++ []).
Proof. intros H1. simpl. unfold_M. rewrite H1. reflexivity. Qed.

(** ** The demonstration program *)

Lemma main_run junk rb data fuel (h0 : heap) :
  (3 <= fuel)%nat ->
  exists hf t,
    main (AllocOk junk) rb data fuel h0
    = Done (Some (0, [printf_popped x0a; printf_popped x14])) hf t /\
    hf = h0 /\
    t = [ EvMalloc 5 (Ptr (fresh (dom h0)));
          EvStore (fresh (dom h0)) 0 x0a; EvStore (fresh (dom h0)) 1 x14;
          EvLoad (fresh (dom h0)) 0; EvLoad (fresh (dom h0)) 1;
          EvFree (Ptr (fresh (dom h0))) ].
Proof.
  intros Hf. destruct fuel as [| [| [| fuel]]]; try lia.
  set (b := fresh (dom h0)).
  do 2 eexists. split; [| split].
  - unfold main.
    eapply bind_done; [apply rb_init_ok |]. fold b.
    eapply bind_done.
    { eapply (rb_push_room _ _ _ b);
        [ vm_compute; discriminate | reflexivity | apply lookup_insert_eq
        | split; [discriminate | reflexivity] ]. }
    eapply bind_done.
    { eapply (rb_push_room _ _ _ b);
        [ vm_compute; discriminate | reflexivity | apply lookup_insert_eq
        | split; [discriminate | reflexivity] ]. }
    cbn [snd].
    eapply bind_done.
    { eapply drain_more.
      { eapply (rb_pop_some _ _ _ b);
          [ discriminate | reflexivity | apply lookup_insert_eq
          | discriminate | reflexivity ]. }
      eapply drain_more.
      { eapply (rb_pop_some _ _ _ b);
          [ vm_compute; discriminate | reflexivity | apply lookup_insert_eq
          | discriminate | reflexivity ]. }
      eapply drain_stop. apply rb_pop_empty. reflexivity. }
    eapply bind_done; [| reflexivity].
    eapply (rb_clean_live _ _ b); [reflexivity | apply lookup_insert_eq].
  - rewrite !delete_insert_eq. apply delete_id. apply fresh_block_free.
  - reflexivity.
Qed.

(** X1 ([main], allocation succeeds).  Whatever the heap, the contents of
    the fresh block and the initial values of the locals, [main] ends
    after three evaluations of the loop condition: it prints
    "Popped: 10" and "Popped: 20", each followed by a newline, returns 0
    and leaves the heap as it found it.  Its memory events are one
    [malloc] of 5 bytes, the two stores, the two loads and one [free] of
    that block. *)
Theorem main_prints_and_releases (junk : nat -> byte) (rb : t_rb)
    (data : byte) (fuel : nat) (h0 : heap) :
  (3 <= fuel)%nat ->
  main (AllocOk junk) rb data fuel h0
  = Done (Some (0, [String.append "Popped: 10" newline;
                    String.append "Popped: 20" newline]))
         h0
         [ EvMalloc 5 (Ptr (fresh (dom h0)));
           EvStore (fresh (dom h0)) 0 x0a; EvStore (fresh (dom h0)) 1 x14;
           EvLoad (fresh (dom h0)) 0; EvLoad (fresh (dom h0)) 1;
           EvFree (Ptr (fresh (dom h0))) ].
Proof.
  intros Hf.
  destruct (main_run junk rb data fuel h0 Hf) as (hf & t & H & -> & ->).
  exact H.
Qed.

(** X2 ([main], allocation fails).  [rb_init] stores the [NULL] that
    [malloc] returned without testing it, and the first [rb_push] of
    [main] writes through it: the program has undefined behaviour. *)
Theorem main_undefined_when_malloc_fails (rb : t_rb) (data : byte)
    (fuel : nat) (h0 : heap) :
  main AllocFail rb data fuel h0 = Undef.
Proof.
  unfold main.
  eapply bind_undef_r; [apply rb_init_fail |].
  unfold_M. rewrite rb_push_unfold. reflexivity.
Qed.

(** X3 (unchecked allocation).  After an [rb_init] whose [malloc] failed,
    with a capacity of at least 2: [buffer] is [NULL], [rb_push] is
    undefined (it writes through [NULL]), [rb_pop] returns -1 without
    touching memory, and [rb_clean] completes without calling [free]. *)
Theorem push_after_failed_alloc (c0 : t_rb) (size : Z) (h0 : heap)
    (d out : byte) :
  2 <= size -> size_ok size ->
  exists c t,
    rb_init c0 size AllocFail h0 = Done c h0 t /\
    buffer c = NULL /\ maxlen c = size /\
    rb_push c d h0 = Undef /\
    rb_pop c out h0 = Done (-1, c, out) h0 [] /\
    rb_clean c h0
    = Done {| buffer := NULL; head := 0; tail := 0; maxlen := 0 |} h0 [].
Proof.
  intros H2 Hsz. eexists. eexists.
  split; [apply rb_init_fail |]. split; [reflexivity |].
  split; [reflexivity |]. split; [| split].
  - rewrite rb_push_unfold. simpl.
    rewrite succ_wrap_below by (unfold size_ok in Hsz; lia).
    reflexivity.
  - apply rb_pop_empty. reflexivity.
  - apply rb_clean_null. reflexivity.
Qed.

(** X4 ([rb_init] never frees).  A completed [rb_init] leaves every block
    that was live before it live and unchanged, and the pointer it stores
    is none of them: initialising a record again without [rb_clean] in
    between leaves its old storage allocated and unreachable. *)
Theorem rb_init_never_frees (c0 : t_rb) (size : Z) (a : alloc)
    (h0 : heap) (c : t_rb) (h : heap) (t : list event)
    (b : block) (l : list byte) :
  rb_init c0 size a h0 = Done c h t ->
  h0 !! b = Some l ->
  h !! b = Some l /\ buffer c <> Ptr b.
Proof.
  intros Hi Hl. destruct a as [| junk].
  - rewrite rb_init_fail in Hi. injection Hi as <- <- <-.
    split; [exact Hl | discriminate].
  - rewrite rb_init_ok in Hi. injection Hi as <- <- <-.
    assert (fresh (dom h0) <> b) as Hne.
    { intros E. pose proof (fresh_block_free h0) as Hf.
      rewrite E in Hf. congruence. }
    split.
    + rewrite lookup_insert_ne by exact Hne. exact Hl.
    + simpl. congruence.
Qed.

(** X5 (the drain loop).  In any state a session reaches, the loop of
    [main] run with more iterations than there are queued bytes ends; it
    prints exactly the bytes pushed and not yet popped, oldest first,
    leaves the heap unchanged and the buffer empty, and [data] holds the
    last byte printed (its old value when nothing was queued). *)
Theorem drain_delivers_queue (C : Z) (junk : nat -> byte) (ks : list call)
    (c0 : t_rb) (out0 : byte) (h0 : heap)
    (c : t_rb) (out : byte) (log : list entry) (h : heap) (t : list event)
    (fuel : nat) (data : byte) :
  size_ok C ->
  session C (AllocOk junk) ks c0 out0 h0 = Done (c, out, log) h t ->
  count c < Z.of_nat fuel ->
  exists q c' data' t',
    pushed log = popped log ++ q /\
    Z.of_nat (length q) = count c /\
    drain fuel c data [] h
    = Done (Some (c', data', printf_popped <$> q)) h t' /\
    head c' = tail c' /\ maxlen c' = C /\ buffer c' = buffer c /\
    data' = List.last q data.
Proof.
  intros Hsz Hs Hf.
  destruct (session_ok C junk ks c0 out0 h0 Hsz)
    as (c_ & out_ & log_ & h_ & t_ & Hs' & Hinv & Hm & Hfifo).
  rewrite Hs in Hs'. injection Hs' as <- <- <- <- <-.
  destruct (drain_spec fuel c data [] h Hinv Hf)
    as (c' & data' & t' & Hd & _ & E & Hm' & Hb & Hl).
  exists (contents c h), c', data', t'.
  split; [exact Hfifo |]. split; [apply contents_length; exact Hinv |].
  split; [exact Hd |]. split; [exact E |]. split; [congruence |].
  split; [exact Hb | exact Hl].
Qed.

(** ** Buffers that hold nothing *)

Lemma run_tiny ks :
  forall c out h,
    maxlen c <= 1 -> head c = 0 -> tail c = 0 ->
    exists log,
      run ks c out h = Done (c, out, log) h [] /\
      e_ret <$> log = replicate (length ks) (-1).
Proof.
  induction ks as [| k ks IH]; intros c out h Hm Hh Ht.
  - exists []. split; reflexivity.
  - destruct (IH c out h Hm Hh Ht) as (log & Hrun & Hret).
    exists ({| e_call := k; e_ret := -1; e_out := out |} :: log).
    split; [| simpl; f_equal; exact Hret].
    change (@nil event) with (@nil event ++ []).
    refine (run_cons _ _ _ _ _ _ _ _ _ _ _ _ _ _ _ _ Hrun).
    destruct k as [d |].
    + apply do_call_push, rb_push_full.
      rewrite Hh, Ht. apply succ_wrap_last; [lia | lia | reflexivity].
    + simpl. apply rb_pop_empty. lia.
Qed.

(** X6 (capacity 0 or 1).  On a buffer initialised with size 0 or 1,
    whatever the allocator answered, every [rb_push] and every [rb_pop]
    of every sequence of calls returns -1; the record, the heap and the
    output byte stay as [rb_init] left them and the only memory event of
    the session is the [malloc]. *)
Theorem tiny_capacity_refuses_all (size : Z) (a : alloc) (ks : list call)
    (c0 : t_rb) (out0 : byte) (h0 : heap) :
  0 <= size <= 1 ->
  exists c h t log,
    rb_init c0 size a h0 = Done c h t /\
    session size a ks c0 out0 h0 = Done (c, out0, log) h t /\
    e_ret <$> log = replicate (length ks) (-1).
Proof.
  intros Hsz.
  destruct (rb_init c0 size a h0) as [c h t |] eqn:Hi;
    [| destruct a; [rewrite rb_init_fail in Hi | rewrite rb_init_ok in Hi];
       discriminate].
  pose proof (rb_init_done _ _ _ _ _ _ _ Hi) as (Hh & Ht & Hm).
  destruct (run_tiny ks c out0 h ltac:(lia) Hh Ht) as (log & Hrun & Hret).
  exists c, h, t, log. split; [reflexivity |]. split; [| exact Hret].
  rewrite <- (app_nil_r t).
  apply (session_cons _ _ _ _ _ _ _ _ _ _ _ _ Hi Hrun).
Qed.

(** X7 (progress).  In any state a session on a buffer of capacity at
    least 2 reaches, [rb_push] and [rb_pop] are never both refused: one of
    them returns 0. *)
Theorem push_or_pop_succeeds (C : Z) (junk : nat -> byte) (ks : list call)
    (c0 : t_rb) (out0 : byte) (h0 : heap)
    (c : t_rb) (out : byte) (log : list entry) (h : heap) (t : list event)
    (d data : byte) :
  2 <= C -> size_ok C ->
  session C (AllocOk junk) ks c0 out0 h0 = Done (c, out, log) h t ->
  (exists c' h' t', rb_push c d h = Done (0, c') h' t') \/
  (exists c' v t', rb_pop c data h = Done (0, c', v) h t').
Proof.
  intros HC Hsz Hs.
  destruct (session_ok C junk ks c0 out0 h0 Hsz)
    as (c_ & out_ & log_ & h_ & t_ & Hs' & Hinv & Hm & _).
  rewrite Hs in Hs'. injection Hs' as <- <- <- <- <-.
  destruct (rb_push_step c d h Hinv)
    as (r & c1 & h1 & t1 & Hp & _ & _ & _ & Hcase).
  destruct Hcase as [(_ & _ & _ & _ & Hfull) | (-> & _)].
  - right.
    destruct (rb_pop_step c data h Hinv)
      as (r' & c2 & v & t2 & Hq & _ & _ & _ & Hcase').
    destruct Hcase' as [(_ & _ & _ & _ & Hz) | (-> & _)]; [lia |].
    exists c2, v, t2. exact Hq.
  - left. exists c1, h1, t1. exact Hp.
Qed.

(** ** Operations on a stale copy of the record *)

(** X8 (stale copy).  [rb_clean] clears the pointer only in the record it
    is given.  With [buffer] a live block: calling [rb_clean] again on a
    copy of the record made before the first call frees the block a
    second time; [rb_pop] on such a copy, when its cursors differ, reads
    the freed block; [rb_push] on it, when it is not full, writes the
    freed block.  All three are undefined. *)
Theorem stale_copy_undefined (c : t_rb) (h : heap) (b : block)
    (l : list byte) (d out : byte) :
  buffer c = Ptr b -> h !! b = Some l ->
  (rb_clean c ;; rb_clean c) h = Undef /\
  (head c <> tail c -> (rb_clean c ;; rb_pop c out) h = Undef) /\
  (succ_wrap (head c) (maxlen c) <> tail c ->
   (rb_clean c ;; rb_push c d) h = Undef).
Proof.
  intros Hb Hl.
  pose proof (rb_clean_live c h b l Hb Hl) as Hc.
  assert (delete b h !! b = None) as Hgone by apply lookup_delete_eq.
  split; [| split].
  - eapply bind_undef_r; [exact Hc |].
    unfold rb_clean. unfold_M. rewrite Hb. simpl. rewrite Hgone. reflexivity.
  - intros Hne. eapply bind_undef_r; [exact Hc |].
    rewrite rb_pop_unfold, (proj2 (Z.eqb_neq _ _) Hne).
    unfold_M. rewrite Hb. simpl. rewrite Hgone. reflexivity.
  - intros Hne. eapply bind_undef_r; [exact Hc |].
    rewrite rb_push_unfold, (proj2 (Z.eqb_neq _ _) Hne).
    unfold_M. rewrite Hb. simpl. rewrite Hgone. reflexivity.
Qed.

(** ** The whole life of a buffer *)

Lemma run_block ks :
  forall c out h c' out' log h' t b,
    run ks c out h = Done (c', out', log) h' t ->
    buffer c = Ptr b -> is_Some (h !! b) ->
    is_Some (h' !! b) /\ Forall (access_in b) t.
Proof.
  induction ks as [| k ks IH]; intros c out h c' out' log h' t b H Hb Hl.
  - simpl in H. unfold_M. injection H as <- <- <- <- <-.
    split; [exact Hl | constructor].
  - apply run_cons_done in H
      as (r & c1 & out1 & h1 & t1 & log' & t2 & Hk & Hrest & _ & ->).
    assert (buffer c1 = Ptr b /\ is_Some (h1 !! b) /\ Forall (access_in b) t1)
      as (Hb1 & Hl1 & Ht1).
    { destruct k as [d |].
      - apply do_call_push_done in Hk as [Hk _].
        apply rb_push_done in Hk
          as [(_ & _ & -> & -> & ->)
             | (_ & _ & b0 & l0 & Hb0 & _ & _ & -> & -> & ->)].
        + split; [exact Hb |]. split; [exact Hl | constructor].
        + assert (b0 = b) as -> by congruence.
          split; [exact Hb |]. split.
          * rewrite lookup_insert_eq. eauto.
          * repeat constructor.
      - simpl in Hk. apply rb_pop_done in Hk
          as [(_ & _ & -> & _ & -> & ->)
             | (_ & _ & b0 & l0 & Hb0 & _ & _ & _ & -> & -> & ->)].
        + split; [exact Hb |]. split; [exact Hl | constructor].
        + assert (b0 = b) as -> by congruence.
          split; [exact Hb |]. split; [exact Hl |]. repeat constructor. }
    destruct (IH _ _ _ _ _ _ _ _ _ Hrest Hb1 Hl1) as [Hl2 Ht2].
    split; [exact Hl2 |]. apply Forall_app. split; assumption.
Qed.

(** X9 (no leak).  [rb_init] with a successful allocation, any sequence
    of push and pop calls, then [rb_clean]: the lifecycle completes, the
    record ends released, and the heap is exactly the heap before
    [rb_init].  Its memory events are the [malloc], then only loads and
    stores inside the block [malloc] returned, then one [free] of that
    block. *)
Theorem lifecycle_restores_heap (size : Z) (junk : nat -> byte)
    (ks : list call) (c0 : t_rb) (out0 : byte) (h0 : heap) :
  size_ok size ->
  exists out log t,
    lifecycle size (AllocOk junk) ks c0 out0 h0
    = Done ({| buffer := NULL; head := 0; tail := 0; maxlen := 0 |},
            out, log)
           h0
           ([EvMalloc size (Ptr (fresh (dom h0)))] ++ t
            ++ [EvFree (Ptr (fresh (dom h0)))]) /\
    Forall (access_in (fresh (dom h0))) t.
Proof.
  intros Hsz. set (b := fresh (dom h0)).
  pose proof (rb_init_ok c0 size junk h0) as Hi.
  rewrite (size_mul_sizeof size Hsz) in Hi. fold b in Hi.
  destruct (rb_init_inv _ _ _ _ _ _ _ Hsz Hi) as (Hinv & _).
  destruct (run_fifo ks _ out0 _ Hinv)
    as (c & out & log & h & t & Hrun & _).
  assert (is_Some ((<[b := junk <$> seq 0 (Z.to_nat size)]> h0) !! b)) as Hl
    by (rewrite lookup_insert_eq; eauto).
  destruct (run_off_block _ _ _ _ _ _ _ _ _ _ Hrun eq_refl) as [Hb Hd].
  destruct (run_block _ _ _ _ _ _ _ _ _ _ Hrun eq_refl Hl) as [[l' Hl'] Ht].
  exists out, log, t. split; [| exact Ht].
  unfold lifecycle.
  replace h0 with (delete b h) at 2.
  - rewrite app_assoc.
    eapply bind_done;
      [apply (session_cons _ _ _ _ _ _ _ _ _ _ _ _ Hi Hrun) |].
    rewrite <- (app_nil_r [EvFree (Ptr b)]).
    eapply bind_done; [apply (rb_clean_live c h b l' Hb Hl') | reflexivity].
  - rewrite Hd, delete_insert_eq. apply delete_id, fresh_block_free.
Qed.

(** ** What a session does not depend on *)

Lemma rb_push_record c d h r c' h' t :
  rb_push c d h = Done (r, c') h' t ->
  (r = -1 /\ c' = c) \/ (r = 0 /\ c' = advance_head c).
Proof.
  intros H. apply rb_push_done in H
    as [(-> & _ & -> & _) | (-> & _ & b & l & _ & _ & _ & -> & _)];
    [left | right]; split; reflexivity.
Qed.

Lemma rb_pop_record c out h r c' out' h' t :
  rb_pop c out h = Done (r, c', out') h' t ->
  (r = -1 /\ c' = c) \/ (r = 0 /\ c' = advance_tail c).
Proof.
  intros H. apply rb_pop_done in H
    as [(-> & _ & -> & _) | (-> & _ & b & l & _ & _ & _ & _ & -> & _)];
    [left | right]; split; reflexivity.
Qed.

(** Two heaps in which the record has the same queued bytes answer every
    call alike. *)
Lemma do_call_agree k c out h1 h2 :
  rb_inv c h1 -> rb_inv c h2 -> contents c h1 = contents c h2 ->
  exists r c' out' h1' h2' t1 t2,
    do_call k c out h1 = Done (r, c', out') h1' t1 /\
    do_call k c out h2 = Done (r, c', out') h2' t2 /\
    rb_inv c' h1' /\ rb_inv c' h2' /\
    contents c' h1' = contents c' h2'.
Proof.
  intros Hinv1 Hinv2 Hc. destruct k as [d |].
  - destruct (rb_push_step c d h1 Hinv1)
      as (r1 & c1 & h1' & t1 & Hp1 & Hinv1' & _ & _ & Hcase1).
    destruct (rb_push_step c d h2 Hinv2)
      as (r2 & c2 & h2' & t2 & Hp2 & Hinv2' & _ & _ & Hcase2).
    pose proof (rb_push_record _ _ _ _ _ _ _ Hp1) as Hr1.
    pose proof (rb_push_record _ _ _ _ _ _ _ Hp2) as Hr2.
    destruct Hcase1 as [(-> & _ & -> & _ & Hf1) | (-> & Hroom1 & _ & Hc1)];
      destruct Hcase2 as [(-> & _ & -> & _ & Hf2) | (-> & Hroom2 & _ & Hc2)];
      try lia.
    + destruct Hr1 as [[_ ->] | [F _]]; [| discriminate F].
      destruct Hr2 as [[_ ->] | [F _]]; [| discriminate F].
      exists (-1), c, out, h1, h2, t1, t2.
      split; [apply do_call_push; exact Hp1 |].
      split; [apply do_call_push; exact Hp2 |]. auto.
    + destruct Hr1 as [[F _] | [_ ->]]; [discriminate F |].
      destruct Hr2 as [[F _] | [_ ->]]; [discriminate F |].
      exists 0, (advance_head c), out, h1', h2', t1, t2.
      split; [apply do_call_push; exact Hp1 |].
      split; [apply do_call_push; exact Hp2 |].
      split; [exact Hinv1' |]. split; [exact Hinv2' |].
      rewrite Hc1, Hc2, Hc. reflexivity.
  - destruct (rb_pop_step c out h1 Hinv1)
      as (r1 & c1 & o1 & t1 & Hp1 & Hinv1' & _ & _ & Hcase1).
    destruct (rb_pop_step c out h2 Hinv2)
      as (r2 & c2 & o2 & t2 & Hp2 & Hinv2' & _ & _ & Hcase2).
    pose proof (rb_pop_record _ _ _ _ _ _ _ _ Hp1) as Hr1.
    pose proof (rb_pop_record _ _ _ _ _ _ _ _ Hp2) as Hr2.
    destruct Hcase1 as [(-> & _ & -> & _ & Hz1) | (-> & Hpos1 & _ & Hc1)];
      destruct Hcase2 as [(-> & _ & -> & _ & Hz2) | (-> & Hpos2 & _ & Hc2)];
      try lia.
    + destruct Hr1 as [[_ ->] | [F _]]; [| discriminate F].
      destruct Hr2 as [[_ ->] | [F _]]; [| discriminate F].
      exists (-1), c, out, h1, h2, t1, t2.
      split; [exact Hp1 |]. split; [exact Hp2 |]. auto.
    + destruct Hr1 as [[F _] | [_ ->]]; [discriminate F |].
      destruct Hr2 as [[F _] | [_ ->]]; [discriminate F |].
      rewrite Hc1, Hc2 in Hc. injection Hc as -> Hc.
      exists 0, (advance_tail c), o2, h1, h2, t1, t2.
      split; [exact Hp1 |]. split; [exact Hp2 |]. auto.
Qed.

Lemma run_agree ks :
  forall c out h1 h2,
    rb_inv c h1 -> rb_inv c h2 -> contents c h1 = contents c h2 ->
    exists c' out' log h1' h2' t1 t2,
      run ks c out h1 = Done (c', out', log) h1' t1 /\
      run ks c out h2 = Done (c', out', log) h2' t2.
Proof.
  induction ks as [| k ks IH]; intros c out h1 h2 Hinv1 Hinv2 Hc.
  - exists c, out, [], h1, h2, [], []. split; reflexivity.
  - destruct (do_call_agree k c out h1 h2 Hinv1 Hinv2 Hc)
      as (r & c1 & out1 & h1' & h2' & t1 & t2 & Hk1 & Hk2 & Hi1 & Hi2 & Hc').
    destruct (IH c1 out1 h1' h2' Hi1 Hi2 Hc')
      as (c2 & out2 & log & h1'' & h2'' & t1' & t2' & Hr1 & Hr2).
    exists c2, out2, ({| e_call := k; e_ret := r; e_out := out1 |} :: log),
      h1'', h2'', (t1 ++ t1'), (t2 ++ t2').
    split.
    + apply (run_cons _ _ _ _ _ _ _ _ _ _ _ _ _ _ _ Hk1 Hr1).
    + apply (run_cons _ _ _ _ _ _ _ _ _ _ _ _ _ _ _ Hk2 Hr2).
Qed.

(** X10 (no uninitialised byte escapes).  Two sessions that issue the
    same calls from the same heap, but whose fresh blocks start with
    different contents and whose records held different values before
    [rb_init], return the same values, deliver the same bytes and end in
    the same record: nothing a caller observes depends on what [malloc]
    left in the block or on the uninitialised record. *)
Theorem session_ignores_junk (size : Z) (junk1 junk2 : nat -> byte)
    (ks : list call) (c1 c2 : t_rb) (out0 : byte) (h0 : heap) :
  size_ok size ->
  exists c out log h1 h2 t1 t2,
    session size (AllocOk junk1) ks c1 out0 h0 = Done (c, out, log) h1 t1 /\
    session size (AllocOk junk2) ks c2 out0 h0 = Done (c, out, log) h2 t2.
Proof.
  intros Hsz.
  pose proof (rb_init_ok c1 size junk1 h0) as Hi1.
  pose proof (rb_init_ok c2 size junk2 h0) as Hi2.
  destruct (rb_init_inv _ _ _ _ _ _ _ Hsz Hi1) as (Hinv1 & _ & _ & _ & Hc1).
  destruct (rb_init_inv _ _ _ _ _ _ _ Hsz Hi2) as (Hinv2 & _ & _ & _ & Hc2).
  destruct (run_agree ks _ out0 _ _ Hinv1 Hinv2 ltac:(congruence))
    as (c & out & log & h1 & h2 & t1 & t2 & Hr1 & Hr2).
  exists c, out, log, h1, h2. do 2 eexists. split.
  - apply (session_cons _ _ _ _ _ _ _ _ _ _ _ _ Hi1 Hr1).
  - apply (session_cons _ _ _ _ _ _ _ _ _ _ _ _ Hi2 Hr2).
Qed.

(** ** The buffer as a bounded queue *)

Lemma do_call_fifo k c out h :
  rb_inv c h ->
  exists r c' out' h' t,
    do_call k c out h = Done (r, c', out') h' t /\
    rb_inv c' h' /\ maxlen c' = maxlen c /\
    fifo_call (maxlen c) k (contents c h) out = (r, contents c' h', out').
Proof.
  intros Hinv. pose proof (contents_length c h Hinv) as Hlen.
  destruct k as [d |].
  - destruct (rb_push_step c d h Hinv)
      as (r & c1 & h1 & t1 & Hp & Hinv1 & Hm1 & _ & Hcase).
    exists r, c1, out, h1, t1. split; [apply do_call_push; exact Hp |].
    split; [exact Hinv1 |]. split; [exact Hm1 |]. simpl. rewrite Hlen.
    destruct Hcase as [(-> & -> & -> & _ & Hfull) | (-> & Hroom & _ & Hc)].
    + destruct (Z.ltb_spec (count c + 1) (maxlen c)); [lia | reflexivity].
    + destruct (Z.ltb_spec (count c + 1) (maxlen c)); [| lia].
      rewrite Hc. reflexivity.
  - destruct (rb_pop_step c out h Hinv)
      as (r & c1 & out1 & t1 & Hp & Hinv1 & Hm1 & _ & Hcase).
    exists r, c1, out1, h, t1. split; [exact Hp |].
    split; [exact Hinv1 |]. split; [exact Hm1 |]. simpl.
    destruct Hcase as [(-> & -> & -> & _ & Hz) | (-> & Hpos & _ & Hc)].
    + destruct (contents c h); [reflexivity | simpl in Hlen; lia].
    + rewrite Hc. reflexivity.
Qed.

Lemma run_fifo_model ks :
  forall c out h,
    rb_inv c h ->
    exists c' out' log h' t,
      run ks c out h = Done (c', out', log) h' t /\
      fifo_run (maxlen c) ks (contents c h) out
      = (contents c' h', out', log).
Proof.
  induction ks as [| k ks IH]; intros c out h Hinv.
  - exists c, out, [], h, []. split; reflexivity.
  - destruct (do_call_fifo k c out h Hinv)
      as (r & c1 & out1 & h1 & t1 & Hk & Hinv1 & Hm1 & Hf).
    destruct (IH c1 out1 h1 Hinv1)
      as (c2 & out2 & log & h2 & t2 & Hrun & Hfr).
    exists c2, out2, ({| e_call := k; e_ret := r; e_out := out1 |} :: log),
      h2, (t1 ++ t2).
    split; [apply (run_cons _ _ _ _ _ _ _ _ _ _ _ _ _ _ _ Hk Hrun) |].
    simpl. rewrite Hf. simpl. rewrite <- Hm1, Hfr. reflexivity.
Qed.

(** X11 (bounded queue).  On a buffer initialised with capacity [C] (the
    allocation succeeded) every sequence of calls completes with exactly
    the return values and output bytes of the reference queue that holds
    at most [C - 1] bytes, started empty; the bytes the reference queue
    ends with are the bytes the buffer still holds. *)
Theorem session_is_bounded_fifo (C : Z) (junk : nat -> byte)
    (ks : list call) (c0 : t_rb) (out0 : byte) (h0 : heap) :
  size_ok C ->
  exists c out log h t,
    session C (AllocOk junk) ks c0 out0 h0 = Done (c, out, log) h t /\
    fifo_run C ks [] out0 = (contents c h, out, log).
Proof.
  intros Hsz.
  pose proof (rb_init_ok c0 C junk h0) as Hi.
  destruct (rb_init_inv _ _ _ _ _ _ _ Hsz Hi) as (Hinv & _ & _ & _ & Hc).
  destruct (run_fifo_model ks _ out0 _ Hinv)
    as (c & out & log & h & t & Hrun & Hf).
  exists c, out, log, h. eexists.
  split; [apply (session_cons _ _ _ _ _ _ _ _ _ _ _ _ Hi Hrun) |].
  rewrite Hc in Hf. exact Hf.
Qed.

(** ** Producer and consumer *)

(** X12 (push and pop commute).  On a buffer that is neither empty nor
    full, with cursors in range and a live block of [maxlen] bytes, a
    push followed by a pop and the same pop followed by the same push
    both succeed and end in the same record, the same heap and the same
    output byte. *)
Theorem push_pop_commute (c : t_rb) (h : heap) (d out : byte) :
  size_ok (maxlen c) -> in_range c -> backed c h ->
  0 < count c -> count c + 1 < maxlen c ->
  exists c' v h' logA logB tA tB,
    run [Push d; Pop] c out h = Done (c', v, logA) h' tA /\
    run [Pop; Push d] c out h = Done (c', v, logB) h' tB /\
    e_ret <$> logA = [0; 0] /\ e_ret <$> logB = [0; 0].
Proof.
  intros Hsz Hr (l & Hst & Hlen) Hpos Hroom.
  pose proof (size_ok_le _ Hsz) as HC.
  assert (succ_wrap (head c) (maxlen c) <> tail c) as Hnf.
  { intros F. apply (count_full c Hr HC) in F. lia. }
  assert (head c <> tail c) as Hne.
  { intros F. apply (count_zero c Hr) in F. lia. }
  destruct Hr as [Hh Ht].
  unfold storage in Hst. destruct (buffer c) as [| b] eqn:Hb; [discriminate |].
  destruct (lookup_lt_is_Some_2 l (Z.to_nat (tail c)) ltac:(lia)) as [v Hv].
  assert (succ_wrap (head c) (maxlen c) <> succ_wrap (tail c) (maxlen c))
    as Hss.
  { rewrite !succ_wrap_cases by assumption.
    destruct (Z.eqb_spec (head c + 1) (maxlen c));
      destruct (Z.eqb_spec (tail c + 1) (maxlen c)); lia. }
  set (hA := <[b := <[Z.to_nat (head c) := d]> l]> h).
  assert (rb_push c d h = Done (0, advance_head c) hA [EvStore b (head c) d])
    as HpA by (apply rb_push_room; try assumption; lia).
  assert (rb_pop (advance_head c) out hA
          = Done (0, advance_tail (advance_head c), v) hA [EvLoad b (tail c)])
    as HqA.
  { apply (rb_pop_some (advance_head c) out hA b
             (<[Z.to_nat (head c) := d]> l) v); simpl; try assumption.
    - apply lookup_insert_eq.
    - lia.
    - rewrite list_lookup_insert_ne by lia. exact Hv. }
  assert (rb_pop c out h = Done (0, advance_tail c, v) h [EvLoad b (tail c)])
    as HqB by (apply (rb_pop_some c out h b l v); try assumption; lia).
  assert (rb_push (advance_tail c) d h
          = Done (0, advance_head (advance_tail c)) hA [EvStore b (head c) d])
    as HpB.
  { apply (rb_push_room (advance_tail c) d h b l); simpl; try assumption. lia. }
  exists (advance_tail (advance_head c)), v, hA.
  do 4 eexists. split; [| split].
  - eapply run_cons; [apply do_call_push; exact HpA |].
    eapply run_cons; [exact HqA | reflexivity].
  - eapply run_cons; [exact HqB |].
    eapply run_cons; [apply do_call_push; exact HpB | reflexivity].
  - split; reflexivity.
Qed.

(** * The further properties on concrete buffers *)

Lemma main_prints_and_releases_witness :
  main (AllocOk ex_junk) ex_stale x00 3 ∅
  = Done (Some (0, [String.append "Popped: 10" newline;
                    String.append "Popped: 20" newline]))
         ∅
         [ EvMalloc 5 (Ptr (fresh (dom (∅ : heap))));
           EvStore (fresh (dom (∅ : heap))) 0 x0a;
           EvStore (fresh (dom (∅ : heap))) 1 x14;
           EvLoad (fresh (dom (∅ : heap))) 0;
           EvLoad (fresh (dom (∅ : heap))) 1;
           EvFree (Ptr (fresh (dom (∅ : heap)))) ].
Proof.
  assert (3 <= 3)%nat as H by lia.
  exact (main_prints_and_releases ex_junk ex_stale x00 3 ∅ H).
Defined.

Lemma push_after_failed_alloc_witness :
  exists c t,
    rb_init ex_blank 5 AllocFail ∅ = Done c ∅ t /\
    rb_push c x0a ∅ = Undef.
Proof.
  assert (2 <= 5) as H by lia.
  destruct (push_after_failed_alloc ex_blank 5 ∅ x0a x00 H size_ok_5)
    as (c & t & Hi & _ & _ & Hp & _).
  exists c, t. split; [exact Hi | exact Hp].
Defined.

Lemma rb_init_never_frees_witness :
  ex_full_heap !! 1%positive = Some [x01; x02; x03; x04; x00] /\
  (<[2%positive := [x00; x00; x00]]> ex_full_heap) !! 1%positive
  = Some [x01; x02; x03; x04; x00] /\
  Ptr 2%positive <> Ptr 1%positive.
Proof.
  assert (rb_init ex_full 3 (AllocOk ex_junk) ex_full_heap
          = Done {| buffer := Ptr 2%positive; head := 0; tail := 0;
                    maxlen := 3 |}
                 (<[2%positive := [x00; x00; x00]]> ex_full_heap)
                 [EvMalloc 3 (Ptr 2%positive)]) as Hi
    by (vm_compute; reflexivity).
  assert (ex_full_heap !! 1%positive = Some [x01; x02; x03; x04; x00]) as Hl
    by (vm_compute; reflexivity).
  split; [exact Hl |].
  exact (rb_init_never_frees _ _ _ _ _ _ _ _ _ Hi Hl).
Defined.

Lemma drain_delivers_queue_witness :
  exists q c' data' t',
    pushed ex_log = popped ex_log ++ q /\
    drain 2 ex_state x00 [] ex_heap
    = Done (Some (c', data', printf_popped <$> q)) ex_heap t' /\
    head c' = tail c'.
Proof.
  assert (count ex_state < Z.of_nat 2) as Hf by (vm_compute; reflexivity).
  destruct (drain_delivers_queue 5 ex_junk ex_calls ex_blank x00 ∅
              ex_state x0a ex_log ex_heap ex_trace 2 x00
              size_ok_5 ex_session Hf)
    as (q & c' & data' & t' & Hq & _ & Hd & He & _).
  exists q, c', data', t'. repeat split; assumption.
Defined.

Lemma tiny_capacity_refuses_all_witness :
  exists c h t log,
    session 1 (AllocOk ex_junk) ex_calls ex_blank x00 ∅
    = Done (c, x00, log) h t /\
    e_ret <$> log = [-1; -1; -1].
Proof.
  assert (0 <= 1 <= 1) as H by lia.
  destruct (tiny_capacity_refuses_all 1 (AllocOk ex_junk) ex_calls
              ex_blank x00 ∅ H)
    as (c & h & t & log & _ & Hs & Hr).
  exists c, h, t, log. split; [exact Hs | exact Hr].
Defined.

Lemma push_or_pop_succeeds_witness :
  (exists c' h' t', rb_push ex_state x1e ex_heap = Done (0, c') h' t') \/
  (exists c' v t', rb_pop ex_state x00 ex_heap = Done (0, c', v) ex_heap t').
Proof.
  assert (2 <= 5) as H by lia.
  exact (push_or_pop_succeeds 5 ex_junk ex_calls ex_blank x00 ∅
           ex_state x0a ex_log ex_heap ex_trace x1e x00
           H size_ok_5 ex_session).
Defined.

Lemma stale_copy_undefined_witness :
  (rb_clean ex_state ;; rb_clean ex_state) ex_heap = Undef.
Proof.
  assert (buffer ex_state = Ptr 1%positive) as Hb by reflexivity.
  assert (ex_heap !! 1%positive = Some [x0a; x14; x00; x00; x00]) as Hl
    by (vm_compute; reflexivity).
  exact (proj1 (stale_copy_undefined ex_state ex_heap 1%positive _ x00 x00
                  Hb Hl)).
Defined.

Lemma lifecycle_restores_heap_witness :
  exists out log t,
    lifecycle 5 (AllocOk ex_junk) ex_calls ex_blank x00 ex_full_heap
    = Done ({| buffer := NULL; head := 0; tail := 0; maxlen := 0 |},
            out, log)
           ex_full_heap
           ([EvMalloc 5 (Ptr (fresh (dom ex_full_heap)))] ++ t
            ++ [EvFree (Ptr (fresh (dom ex_full_heap)))]).
Proof.
  destruct (lifecycle_restores_heap 5 ex_junk ex_calls ex_blank x00
              ex_full_heap size_ok_5)
    as (out & log & t & H & _).
  exists out, log, t. exact H.
Defined.

Lemma session_ignores_junk_witness :
  exists c out log h1 h2 t1 t2,
    session 5 (AllocOk ex_junk) ex_calls ex_blank x00 ∅
    = Done (c, out, log) h1 t1 /\
    session 5 (AllocOk ex_junk_ff) ex_calls ex_stale x00 ∅
    = Done (c, out, log) h2 t2.
Proof.
  exact (session_ignores_junk 5 ex_junk ex_junk_ff ex_calls ex_blank
           ex_stale x00 ∅ size_ok_5).
Defined.

Lemma session_is_bounded_fifo_witness :
  exists c out log h t,
    session 5 (AllocOk ex_junk) ex_calls ex_blank x00 ∅
    = Done (c, out, log) h t /\
    fifo_run 5 ex_calls [] x00 = (contents c h, out, log).
Proof.
  exact (session_is_bounded_fifo 5 ex_junk ex_calls ex_blank x00 ∅
           size_ok_5).
Defined.

Lemma push_pop_commute_witness :
  exists c' v h' logA logB tA tB,
    run [Push x1e; Pop] ex_state x00 ex_heap = Done (c', v, logA) h' tA /\
    run [Pop; Push x1e] ex_state x00 ex_heap = Done (c', v, logB) h' tB.
Proof.
  assert (in_range ex_state) as Hr by (unfold in_range; simpl; lia).
  assert (backed ex_state ex_heap) as Hb.
  { exists [x0a; x14; x00; x00; x00]. split; vm_compute; reflexivity. }
  assert (0 < count ex_state) as H1 by (vm_compute; reflexivity).
  assert (count ex_state + 1 < maxlen ex_state) as H2
    by (vm_compute; reflexivity).
  destruct (push_pop_commute ex_state ex_heap x1e x00 size_ok_5 Hr Hb H1 H2)
    as (c' & v & h' & logA & logB & tA & tB & HA & HB & _).
  exists c', v, h', logA, logB, tA, tB. split; [exact HA | exact HB].
Defined.
